(** * Bulk: serialization buffers, message queues, Epiphany streams and
      cyclic partitionings

    A shallow embedding of the parts of the Bulk BSP library that its
    specification makes checkable statements about:

    - [bulk::detail::scale] and [bulk::detail::memory_buffer]
      (the size pass and the byte buffer of the serialization layer),
    - [bulk::queue] with its [sender] and its [impl] delivery hooks,
    - [bulk::epiphany::stream::write],
    - [bulk::cyclic_partitioning].

    Machine integers are [Z] with their wrap-around written out, memory is
    [list byte], operations whose C++ behaviour is undefined (a [memcpy]
    outside an allocation, a division by zero, a signed overflow) or that
    throw return [None]. *)

From Stdlib Require Import ZArith Lia Eqdep_dec.
From Stdlib Require Import Strings.Byte.
From stdpp Require Import base option list.

Local Open Scope Z_scope.

(** ** Machine integers and bytes *)

Module Machine.

(** The width of [std::size_t] is the only thing the code takes from the
    platform: 32 bits on the Epiphany cores, 64 on the hosts that run the
    thread backend.  [int] has 32 bits on both. *)
Class Platform := {
  size_t_bits : Z;
  size_t_bits_ge_32 : 32 <= size_t_bits
}.

Lemma le_32_32 : 32 <= 32.
Proof. lia. Qed.

Lemma le_32_64 : 32 <= 64.
Proof. lia. Qed.

(** The Epiphany cores, and the 64-bit hosts. *)
Definition epiphany32 : Platform :=
  {| size_t_bits := 32; size_t_bits_ge_32 := le_32_32 |}.
Definition host64 : Platform :=
  {| size_t_bits := 64; size_t_bits_ge_32 := le_32_64 |}.

Definition size_t_modulus `{Platform} : Z := 2 ^ size_t_bits.

(** Conversion to [std::size_t], and arithmetic in it. *)
Definition to_size_t `{Platform} (z : Z) : Z := z mod size_t_modulus.

(** [PTRDIFF_MAX]: no allocation has more bytes. *)
Definition ptrdiff_max `{Platform} : Z := 2 ^ (size_t_bits - 1) - 1.

Definition INT_MAX : Z := 2 ^ 31 - 1.
Definition INT_MIN : Z := - 2 ^ 31.

(** Conversion to [unsigned] and to [int] (two's complement). *)
Definition to_unsigned (z : Z) : Z := z mod 2 ^ 32.
Definition to_int (z : Z) : Z := (z + 2 ^ 31) mod 2 ^ 32 - 2 ^ 31.

Definition in_int_range (z : Z) : bool := (INT_MIN <=? z) && (z <=? INT_MAX).

(** [char]: one byte. *)
Definition byte_of_Z (z : Z) : byte :=
  match Byte.of_N (Z.to_N (z mod 256)) with
  | Some b => b
  | None => x00
  end.

Definition Z_of_byte (b : byte) : Z := Z.of_N (Byte.to_N b).

(** The object representation of an [int]: four bytes, least significant
    first. *)
Definition int_bytes (z : Z) : list byte :=
  [byte_of_Z z; byte_of_Z (z / 2 ^ 8); byte_of_Z (z / 2 ^ 16);
   byte_of_Z (z / 2 ^ 24)].

Definition int_of_bytes (bs : list byte) : Z :=
  match bs with
  | [b0; b1; b2; b3] =>
      to_int (Z_of_byte b0 + 2 ^ 8 * Z_of_byte b1 + 2 ^ 16 * Z_of_byte b2
              + 2 ^ 24 * Z_of_byte b3)
  | _ => 0
  end.

(** An [int] value. *)
Record int := Int { int_val : Z; int_range : in_int_range int_val = true }.

Lemma to_int_range z : in_int_range (to_int z) = true.
Proof.
  unfold in_int_range, to_int, INT_MIN, INT_MAX.
  pose proof (Z.mod_pos_bound (z + 2 ^ 31) (2 ^ 32) ltac:(lia)).
  apply andb_true_intro; split; [apply Z.leb_le | apply Z.leb_le]; lia.
Qed.

(** The cast [(int)z]. *)
Definition int_cast (z : Z) : int := Int (to_int z) (to_int_range z).

Lemma int_eq (a b : int) : int_val a = int_val b -> a = b.
Proof.
  destruct a as [x p], b as [y q]; simpl; intros ->.
  f_equal. apply UIP_dec. decide equality.
Qed.

Lemma to_int_small z : INT_MIN <= z <= INT_MAX -> to_int z = z.
Proof.
  unfold to_int, INT_MIN, INT_MAX; intros Hz.
  rewrite Z.mod_small; lia.
Qed.

Lemma int_val_bounds (i : int) : INT_MIN <= int_val i <= INT_MAX.
Proof.
  destruct i as [z p]; simpl. unfold in_int_range in p.
  apply andb_prop in p as [p1 p2].
  apply Z.leb_le in p1. apply Z.leb_le in p2. lia.
Qed.

Lemma Z_of_byte_of_Z z : Z_of_byte (byte_of_Z z) = z mod 256.
Proof.
  unfold Z_of_byte, byte_of_Z.
  pose proof (Z.mod_pos_bound z 256 ltac:(lia)) as Hb.
  destruct (Byte.of_N (Z.to_N (z mod 256))) as [b|] eqn:E.
  - apply Byte.to_of_N in E. rewrite E. lia.
  - apply Byte.of_N_None_iff in E. lia.
Qed.

Lemma byte_of_Z_of_byte b : byte_of_Z (Z_of_byte b) = b.
Proof.
  unfold Z_of_byte, byte_of_Z.
  pose proof (Byte.to_N_bounded b) as Hb.
  rewrite Z.mod_small by lia.
  rewrite N2Z.id, Byte.of_to_N. reflexivity.
Qed.

Lemma int_of_bytes_int_bytes z : int_of_bytes (int_bytes z) = to_int z.
Proof.
  unfold int_of_bytes, int_bytes. rewrite !Z_of_byte_of_Z.
  unfold to_int. f_equal.
  change (2 ^ 8) with 256. change (2 ^ 16) with 65536.
  change (2 ^ 24) with 16777216. change (2 ^ 32) with 4294967296.
  change (2 ^ 31) with 2147483648.
  Z.div_mod_to_equations. lia.
Qed.

End Machine.

(** ** Serialization: [bulk::detail::scale] and [bulk::detail::memory_buffer] *)

Module Serialize.
Import Machine.

(** A type [T] that the templates [operator<<(const T&)] and
    [operator>>(T&)] are instantiated at: [sizeof(T)] bytes that [memcpy]
    copies out of a value ([repr]) and back into one ([unrepr]).  As the
    element type of a [std::vector] it is stored contiguously, one
    [sizeof(T)] after the other ([operator>>] uses [xs.data()], which the
    bit-packed [std::vector<bool>] does not have). *)
Class FixedWidth (T : Type) := {
  sizeof : nat;
  repr : T -> list byte;
  unrepr : list byte -> T;
  sizeof_pos : (0 < sizeof)%nat;
  length_repr : forall v, length (repr v) = sizeof;
  unrepr_repr : forall v, unrepr (repr v) = v
}.
Arguments sizeof T {_}.

Definition char_unrepr (bs : list byte) : byte :=
  match bs with
  | c :: _ => c
  | [] => x00
  end.

#[export] Instance char_fixed : FixedWidth byte :=
  {| sizeof := 1;
     repr := fun c => [c];
     unrepr := char_unrepr;
     sizeof_pos := Nat.lt_0_1;
     length_repr := fun _ => eq_refl;
     unrepr_repr := fun _ => eq_refl |}.

Lemma int_unrepr_repr (i : int) : int_cast (int_of_bytes (int_bytes (int_val i))) = i.
Proof.
  apply int_eq. unfold int_cast. cbn [int_val].
  rewrite int_of_bytes_int_bytes.
  rewrite (to_int_small (int_val i)) by apply int_val_bounds.
  apply to_int_small, int_val_bounds.
Qed.

#[export] Instance int_fixed : FixedWidth int :=
  {| sizeof := 4;
     repr := fun i => int_bytes (int_val i);
     unrepr := fun bs => int_cast (int_of_bytes bs);
     sizeof_pos := Nat.lt_0_succ 3;
     length_repr := fun _ => eq_refl;
     unrepr_repr := int_unrepr_repr |}.

(** [sizeof(bool)] *)
Definition sizeof_bool : nat := 1.

Lemma pair_sizeof_pos {A B} `{FixedWidth A} `{FixedWidth B} :
  (0 < sizeof A + sizeof B)%nat.
Proof. pose proof (sizeof_pos (T := A)). lia. Qed.

Lemma pair_length_repr {A B} `{FixedWidth A} `{FixedWidth B} (v : A * B) :
  length (repr (fst v) ++ repr (snd v)) = (sizeof A + sizeof B)%nat.
Proof. rewrite length_app, !length_repr. reflexivity. Qed.

Lemma pair_unrepr_repr {A B} `{FixedWidth A} `{FixedWidth B} (v : A * B) :
  (unrepr (take (sizeof A) (repr (fst v) ++ repr (snd v))),
   unrepr (drop (sizeof A) (repr (fst v) ++ repr (snd v)))) = v.
Proof.
  destruct v as [a b]. cbn [fst snd].
  rewrite take_app_length' by (symmetry; apply length_repr).
  rewrite drop_app_length' by (symmetry; apply length_repr).
  rewrite !unrepr_repr. reflexivity.
Qed.

(** A struct of two members without padding: one after the other. *)
#[export] Instance pair_fixed {A B} `{FixedWidth A} `{FixedWidth B}
    : FixedWidth (A * B) :=
  {| sizeof := sizeof A + sizeof B;
     repr := fun v => repr (fst v) ++ repr (snd v);
     unrepr := fun bs => (unrepr (take (sizeof A) bs),
                          unrepr (drop (sizeof A) bs));
     sizeof_pos := pair_sizeof_pos;
     length_repr := pair_length_repr;
     unrepr_repr := pair_unrepr_repr |}.

(** A [std::string] is its sequence of [char]s; ['\0'] is [x00]. *)
Definition string := list byte.

Section WithPlatform.
Context `{Platform}.

(** Arithmetic in [std::size_t]. *)
Definition size_add (a b : Z) : Z := to_size_t (a + b).
Definition size_mul (a b : Z) : Z := to_size_t (a * b).

(** *** [struct scale] *)

Record scale := { size : Z }.

(** [template <typename T> void operator|(T&)] *)
Definition scale_fixed {T} `{FixedWidth T} (_ : T) (s : scale) : scale :=
  {| size := size_add (size s) (Z.of_nat (sizeof T)) |}.

(** [void operator|(std::string& str)] *)
Definition scale_string (str : string) (s : scale) : scale :=
  {| size := size_add (size s)
               (size_mul (size_add (Z.of_nat (length str)) 1)
                         (Z.of_nat (sizeof byte))) |}.

(** [template <typename T> void operator|(std::vector<T>& xs)] *)
Definition scale_vector {T} `{FixedWidth T} (xs : list T) (s : scale) : scale :=
  {| size := size_add (size s)
               (size_add (Z.of_nat (sizeof int))
                         (size_mul (Z.of_nat (length xs)) (Z.of_nat (sizeof T)))) |}.

(** The same template at [T = bool]: [sizeof(bool)] for every element of
    the [std::vector<bool>], given here with their proxies (see
    [write_vector_bool]). *)
Definition scale_vector_bool {R} (xs : list (bool * R)) (s : scale) : scale :=
  {| size := size_add (size s)
               (size_add (Z.of_nat (sizeof int))
                         (size_mul (Z.of_nat (length xs))
                                   (Z.of_nat sizeof_bool))) |}.

(** *** [struct memory_buffer] *)

Record memory_buffer := { buffer : list byte; index : Z }.

(** [memory_buffer(std::size_t size)]: a fresh allocation, all zero
    ([make_unique<char[]>] value-initializes), cursor at 0. *)
Definition new_buffer (size : nat) : memory_buffer :=
  {| buffer := replicate size x00; index := 0 |}.

(** [memory_buffer(std::size_t size, char* data)] *)
Definition buffer_of (data : list byte) : memory_buffer :=
  {| buffer := data; index := 0 |}.

(** An operation on the buffer: it returns a result and the buffer after
    it, or has no defined behaviour. *)
Definition M (A : Type) : Type := memory_buffer -> option (A * memory_buffer).

Definition buf_ret {A} (a : A) : M A := fun b => Some (a, b).

Definition buf_bind {A B} (c : M A) (k : A -> M B) : M B :=
  fun b =>
    match c b with
    | Some (a, b') => k a b'
    | None => None
    end.

Definition buf_fail {A} : M A := fun _ => None.

(** [memcpy(mem + i, src, |src|)]: defined inside the allocation only. *)
Definition memcpy_to (mem : list byte) (i : Z) (src : list byte) : option (list byte) :=
  if (0 <=? i) && (i + Z.of_nat (length src) <=? Z.of_nat (length mem)) then
    Some (take (Z.to_nat i) mem ++ src
          ++ drop (Z.to_nat i + length src)%nat mem)
  else None.

(** [memcpy(dst, mem + i, n)]: the [n] bytes read. *)
Definition memcpy_from (mem : list byte) (i : Z) (n : Z) : option (list byte) :=
  if (0 <=? i) && (0 <=? n) && (i + n <=? Z.of_nat (length mem)) then
    Some (take (Z.to_nat n) (drop (Z.to_nat i) mem))
  else None.

End WithPlatform.

Declare Scope buf_scope.
Delimit Scope buf_scope with buf.
Notation "x <- c ;; k" := (buf_bind c (fun x => k))
  (at level 100, c at next level, k at level 200, right associativity,
   only parsing) : buf_scope.
Notation "c ;;; k" := (buf_bind c (fun _ => k))
  (at level 100, k at level 200, right associativity, only parsing)
  : buf_scope.

Section Buffer.
Context `{Platform}.
Local Open Scope buf_scope.

(** [template <typename T> void operator<<(const T& value)] *)
Definition write {T} `{FixedWidth T} (value : T) : M unit :=
  fun b =>
    match memcpy_to (buffer b) (index b) (repr value) with
    | Some mem =>
        Some (tt, {| buffer := mem;
                     index := size_add (index b) (Z.of_nat (sizeof T)) |})
    | None => None
    end.

(** [template <typename T> void operator>>(T& value)] *)
Definition read {T} `{FixedWidth T} : M T :=
  fun b =>
    match memcpy_from (buffer b) (index b) (Z.of_nat (sizeof T)) with
    | Some bs =>
        Some (unrepr bs, {| buffer := buffer b;
                            index := size_add (index b) (Z.of_nat (sizeof T)) |})
    | None => None
    end.

(** The loop [for (auto x : xs)] that writes every [x] with [<<]. *)
Fixpoint write_each {T} `{FixedWidth T} (xs : list T) : M unit :=
  match xs with
  | [] => buf_ret tt
  | x :: xs' => write x ;;; write_each xs'
  end.

(** [void operator<<(std::string& str)] *)
Definition write_string (str : string) : M unit :=
  write_each str ;;; write x00.

(** The [std::string] built from a pointer to [char]: the bytes before
    the first ['\0']; the constructor runs off the allocation when there is
    none. *)
Fixpoint c_str (mem : list byte) : option string :=
  match mem with
  | [] => None
  | c :: mem' =>
      if Byte.eqb c x00 then Some []
      else match c_str mem' with
           | Some s => Some (c :: s)
           | None => None
           end
  end.

(** [void operator>>(std::string& str)] *)
Definition read_string : M string :=
  fun b =>
    if 0 <=? index b then
      match c_str (drop (Z.to_nat (index b)) (buffer b)) with
      | Some str =>
          Some (str, {| buffer := buffer b;
                        index := size_add (index b)
                                   (size_mul (size_add (Z.of_nat (length str)) 1)
                                             (Z.of_nat (sizeof byte))) |})
      | None => None
      end
    else None.

(** [template <typename T> void operator<<(std::vector<T>& xs)] at every
    element type [T] but [bool]: the loop variable [auto x] is a copy of the
    element.  At [T = bool] it is not: see [write_vector_bool]. *)
Definition write_vector {T} `{FixedWidth T} (xs : list T) : M unit :=
  write (int_cast (Z.of_nat (length xs))) ;;; write_each xs.

(** The same template at [T = bool].  [std::vector<bool>] is the packed
    specialization: the loop [for (auto x : xs)] gives, for each element, a
    proxy object of the type [std::vector<bool>::reference], and writing
    [x] with [<<] is the template for fixed-width values at that type: it
    copies the [sizeof(reference)] bytes of the proxy, not a [bool].  [R] is
    the type of the proxies, which the library defines, and every element
    comes with the proxy that the loop gives for it.  ([operator>>] has no
    instance at this type: it calls [xs.data()].) *)
Definition write_vector_bool {R} `{FixedWidth R} (xs : list (bool * R)) : M unit :=
  write (int_cast (Z.of_nat (length xs))) ;;; write_each (map snd xs).

(** The elements that [n * sizeof(T)] bytes of vector storage hold. *)
Fixpoint elements {T} `{FixedWidth T} (n : nat) (bs : list byte) : list T :=
  match n with
  | O => []
  | S n' => unrepr (take (sizeof T) bs) :: elements n' (drop (sizeof T) bs)
  end.

(** [std::vector<T>::max_size()] *)
Definition max_size (T : Type) `{FixedWidth T} : Z :=
  ptrdiff_max / Z.of_nat (sizeof T).

(** [template <typename T> void operator>>(std::vector<T>& xs)].
    [xs.resize(size)] converts [size] to [std::size_t] and throws
    [std::length_error] above [max_size()], as it does for every negative
    [size]; the [memcpy] then fills the whole storage of [xs]. *)
Definition read_vector {T} `{FixedWidth T} : M (list T) :=
  size <- read (T := int) ;;
  let n := to_size_t (int_val size) in
  if max_size T <? n then buf_fail
  else
    fun b =>
      match memcpy_from (buffer b) (index b)
                        (size_mul (Z.of_nat (sizeof T)) n) with
      | Some bs =>
          Some (elements (Z.to_nat n) bs,
                {| buffer := buffer b;
                   index := size_add (index b)
                              (size_mul n (Z.of_nat (sizeof T))) |})
      | None => None
      end.

(** *** Heterogeneous sequences of values *)

Inductive value : Type :=
| Fixed {T : Type} `{FixedWidth T} (v : T)
| Str (str : string)
| Vec {T : Type} `{FixedWidth T} (xs : list T)
| VecBool {R : Type} `{FixedWidth R} (xs : list (bool * R)).

(** [scale | v].  For a [std::vector<bool>] the template for vectors adds
    [sizeof(int) + sizeof(bool) * xs.size()]. *)
Definition scale_value (v : value) (s : scale) : scale :=
  match v with
  | Fixed x => scale_fixed x s
  | Str str => scale_string str s
  | Vec xs => scale_vector xs s
  | VecBool xs => scale_vector_bool xs s
  end.

(** [membuf << v] *)
Definition write_value (v : value) : M unit :=
  match v with
  | Fixed x => write x
  | Str str => write_string str
  | Vec xs => write_vector xs
  | VecBool xs => write_vector_bool xs
  end.

(** The values that are written element by element: all but a
    [std::vector<bool>]. *)
Definition by_value (v : value) : Prop :=
  match v with
  | VecBool _ => False
  | _ => True
  end.

Definition scale_all (vs : list value) (s : scale) : scale :=
  fold_left (fun s v => scale_value v s) vs s.

Fixpoint write_all (vs : list value) : M unit :=
  match vs with
  | [] => buf_ret tt
  | v :: vs' => write_value v ;;; write_all vs'
  end.

(** The cursor moved back to where it was in [b0]. *)
Definition rewind (b0 b : memory_buffer) : memory_buffer :=
  {| buffer := buffer b; index := index b0 |}.

(** What the code can rely on about a buffer: its allocation is one that
    [new char[size]] can return and its cursor is inside it or at its
    end. *)
Definition buffer_ok (b : memory_buffer) : Prop :=
  0 <= index b <= Z.of_nat (length (buffer b)) /\
  Z.of_nat (length (buffer b)) <= ptrdiff_max.

End Buffer.

(** The bytes a value is serialized to: what [<<] copies into the buffer. *)
Definition encode_each {T} `{FixedWidth T} (xs : list T) : list byte :=
  flat_map repr xs.

Definition encode (v : value) : list byte :=
  match v with
  | Fixed x => repr x
  | Str str => str ++ [x00]
  | Vec xs => repr (int_cast (Z.of_nat (length xs))) ++ encode_each xs
  | VecBool xs =>
      repr (int_cast (Z.of_nat (length xs))) ++ encode_each (map snd xs)
  end.

(** The buffer after [bytes] were copied in at the cursor, the cursor
    behind them. *)
Definition put_bytes (bytes : list byte) (b : memory_buffer) : option (unit * memory_buffer) :=
  match memcpy_to (buffer b) (index b) bytes with
  | Some mem =>
      Some (tt, {| buffer := mem; index := index b + Z.of_nat (length bytes) |})
  | None => None
  end.

Section Facts.
Context `{Platform}.

Lemma size_t_modulus_ge : 2 ^ 32 <= size_t_modulus.
Proof.
  unfold size_t_modulus. apply Z.pow_le_mono_r; [lia | apply size_t_bits_ge_32].
Qed.

Lemma to_size_t_small z : 0 <= z < size_t_modulus -> to_size_t z = z.
Proof. intros Hz. unfold to_size_t. apply Z.mod_small, Hz. Qed.

Lemma size_t_modulus_ptrdiff : size_t_modulus = 2 * (ptrdiff_max + 1).
Proof.
  unfold size_t_modulus, ptrdiff_max. pose proof size_t_bits_ge_32.
  rewrite Z.sub_add, <- Z.pow_succ_r by lia. f_equal. lia.
Qed.

Lemma buffer_ok_lt b :
  buffer_ok b ->
  0 <= index b <= Z.of_nat (length (buffer b)) /\
  Z.of_nat (length (buffer b)) < size_t_modulus.
Proof.
  intros [Hi Hm]. split; [exact Hi|]. rewrite size_t_modulus_ptrdiff. lia.
Qed.

Lemma memcpy_to_Some mem i src mem' :
  memcpy_to mem i src = Some mem' ->
  0 <= i /\ i + Z.of_nat (length src) <= Z.of_nat (length mem) /\
  mem' = take (Z.to_nat i) mem ++ src ++ drop (Z.to_nat i + length src)%nat mem /\
  length mem' = length mem.
Proof.
  unfold memcpy_to. intros Hc.
  destruct (0 <=? i) eqn:E1; [|discriminate].
  destruct (i + Z.of_nat (length src) <=? Z.of_nat (length mem)) eqn:E2;
    [|discriminate].
  apply Z.leb_le in E1. apply Z.leb_le in E2.
  simpl in Hc. injection Hc as <-.
  repeat split; try lia.
  rewrite !length_app, length_take, length_drop. lia.
Qed.

Lemma memcpy_to_fits mem i src :
  0 <= i -> i + Z.of_nat (length src) <= Z.of_nat (length mem) ->
  memcpy_to mem i src =
  Some (take (Z.to_nat i) mem ++ src ++ drop (Z.to_nat i + length src)%nat mem).
Proof.
  intros H1 H2. unfold memcpy_to.
  apply Z.leb_le in H1. apply Z.leb_le in H2. rewrite H1, H2. reflexivity.
Qed.

Lemma memcpy_to_app_None mem i a b :
  memcpy_to mem i a = None -> memcpy_to mem i (a ++ b) = None.
Proof.
  unfold memcpy_to. rewrite length_app.
  destruct (0 <=? i) eqn:E1; [|reflexivity]. simpl.
  destruct (i + Z.of_nat (length a) <=? Z.of_nat (length mem)) eqn:E2;
    [discriminate|]. intros _.
  apply Z.leb_gt in E2.
  destruct (i + Z.of_nat (length a + length b) <=? Z.of_nat (length mem)) eqn:E3;
    [|reflexivity].
  apply Z.leb_le in E3. lia.
Qed.

Lemma memcpy_to_app mem i a b m1 :
  memcpy_to mem i a = Some m1 ->
  memcpy_to mem i (a ++ b) = memcpy_to m1 (i + Z.of_nat (length a)) b.
Proof.
  intros Ha. apply memcpy_to_Some in Ha as (Hi & Hfit & -> & Hlen).
  unfold memcpy_to at 1 2. rewrite Hlen, length_app.
  replace (0 <=? i) with true by (symmetry; apply Z.leb_le; lia).
  replace (0 <=? i + Z.of_nat (length a)) with true
    by (symmetry; apply Z.leb_le; lia).
  replace (i + Z.of_nat (length a) + Z.of_nat (length b))
    with (i + Z.of_nat (length a + length b)) by lia.
  simpl.
  destruct (i + Z.of_nat (length a + length b) <=? Z.of_nat (length mem)) eqn:E;
    [|reflexivity].
  apply Z.leb_le in E. f_equal.
  replace (Z.to_nat (i + Z.of_nat (length a)))
    with (Z.to_nat i + length a)%nat by lia.
  rewrite take_app_ge by (rewrite length_take; lia).
  rewrite length_take_le by lia.
  rewrite take_app_ge by lia.
  replace (Z.to_nat i + length a - Z.to_nat i - length a)%nat with 0%nat by lia.
  rewrite take_0, app_nil_r.
  rewrite <- !app_assoc. do 2 f_equal.
  rewrite drop_app_ge by (rewrite length_take; lia).
  rewrite length_take_le by lia.
  rewrite drop_app_ge by lia.
  rewrite drop_drop. do 2 f_equal. lia.
Qed.

Lemma memcpy_from_fits mem i n :
  0 <= i -> 0 <= n -> i + n <= Z.of_nat (length mem) ->
  memcpy_from mem i n = Some (take (Z.to_nat n) (drop (Z.to_nat i) mem)).
Proof.
  intros H1 H2 H3. unfold memcpy_from.
  apply Z.leb_le in H1. apply Z.leb_le in H2. apply Z.leb_le in H3.
  rewrite H1, H2, H3. reflexivity.
Qed.

(** Where bytes were copied to, they are read back. *)
Lemma drop_memcpy_to mem i src mem' :
  memcpy_to mem i src = Some mem' ->
  drop (Z.to_nat i) mem' = src ++ drop (Z.to_nat i + length src)%nat mem.
Proof.
  intros Hc. apply memcpy_to_Some in Hc as (Hi & Hfit & -> & _).
  rewrite drop_app_length'; [reflexivity|].
  rewrite length_take. lia.
Qed.

Lemma memcpy_from_to mem i src mem' :
  memcpy_to mem i src = Some mem' ->
  memcpy_from mem' i (Z.of_nat (length src)) = Some src.
Proof.
  intros Hc. pose proof (drop_memcpy_to _ _ _ _ Hc) as Hd.
  apply memcpy_to_Some in Hc as (Hi & Hfit & _ & Hlen).
  rewrite memcpy_from_fits by lia.
  rewrite Hd, Nat2Z.id, take_app_length. reflexivity.
Qed.

Lemma to_size_t_add_l a b : to_size_t (to_size_t a + b) = to_size_t (a + b).
Proof. unfold to_size_t. apply Zplus_mod_idemp_l. Qed.

Lemma to_size_t_add_r a b : to_size_t (a + to_size_t b) = to_size_t (a + b).
Proof. unfold to_size_t. apply Zplus_mod_idemp_r. Qed.

Lemma to_size_t_mul_l a b : to_size_t (to_size_t a * b) = to_size_t (a * b).
Proof. unfold to_size_t. apply Zmult_mod_idemp_l. Qed.

Lemma to_size_t_mul_r a b : to_size_t (a * to_size_t b) = to_size_t (a * b).
Proof. unfold to_size_t. apply Zmult_mod_idemp_r. Qed.

Lemma length_encode_each {T} `{FixedWidth T} (xs : list T) :
  length (encode_each xs) = (length xs * sizeof T)%nat.
Proof.
  induction xs as [|x xs IH]; [reflexivity|].
  unfold encode_each in *. simpl. rewrite length_app, length_repr, IH. lia.
Qed.

Lemma put_bytes_Some bytes b b' :
  put_bytes bytes b = Some (tt, b') ->
  memcpy_to (buffer b) (index b) bytes = Some (buffer b') /\
  index b' = index b + Z.of_nat (length bytes).
Proof.
  unfold put_bytes. destruct (memcpy_to _ _ _) as [mem|]; [|discriminate].
  intros [= <-]. split; reflexivity.
Qed.

Lemma put_bytes_ok bytes b b' :
  buffer_ok b -> put_bytes bytes b = Some (tt, b') -> buffer_ok b'.
Proof.
  intros [Hi Hm] Hp. apply put_bytes_Some in Hp as [Hc Hidx].
  apply memcpy_to_Some in Hc as (_ & Hfit & _ & Hlen).
  unfold buffer_ok. rewrite Hlen, Hidx. lia.
Qed.

Lemma put_bytes_nil b : buffer_ok b -> put_bytes [] b = Some (tt, b).
Proof.
  intros [Hi Hm]. unfold put_bytes. rewrite memcpy_to_fits by (simpl; lia).
  destruct b as [mem i]; simpl in *. do 2 f_equal. f_equal; [|lia].
  rewrite Nat.add_0_r. apply take_drop.
Qed.

Lemma put_bytes_app a c b :
  put_bytes (a ++ c) b =
  match put_bytes a b with
  | Some (_, b1) => put_bytes c b1
  | None => None
  end.
Proof.
  unfold put_bytes at 1 2.
  destruct (memcpy_to (buffer b) (index b) a) as [m1|] eqn:Ea.
  - rewrite (memcpy_to_app _ _ _ _ _ Ea). unfold put_bytes; simpl.
    destruct (memcpy_to m1 _ c); [|reflexivity].
    rewrite length_app. do 3 f_equal. lia.
  - rewrite memcpy_to_app_None by exact Ea. reflexivity.
Qed.

(** [<<] at a fixed-width type copies the object representation in. *)
Lemma write_eq {T} `{FixedWidth T} (v : T) b :
  buffer_ok b -> write v b = put_bytes (repr v) b.
Proof.
  intros Hb. pose proof (buffer_ok_lt _ Hb) as [Hi Hm]. unfold write, put_bytes.
  destruct (memcpy_to _ _ _) as [mem|] eqn:E; [|reflexivity].
  apply memcpy_to_Some in E as (_ & Hfit & _ & _).
  rewrite length_repr in *.
  unfold size_add. rewrite to_size_t_small by lia. reflexivity.
Qed.

Lemma write_each_eq {T} `{FixedWidth T} (xs : list T) b :
  buffer_ok b -> write_each xs b = put_bytes (encode_each xs) b.
Proof.
  revert b. induction xs as [|x xs IH]; intros b Hb.
  - simpl. unfold buf_ret. symmetry. apply put_bytes_nil, Hb.
  - change (encode_each (x :: xs)) with (repr x ++ encode_each xs).
    rewrite put_bytes_app. simpl. unfold buf_bind.
    rewrite write_eq by exact Hb.
    destruct (put_bytes (repr x) b) as [[[] b1]|] eqn:E; [|reflexivity].
    apply IH. eapply put_bytes_ok; eassumption.
Qed.

(** Writing a value copies its encoding in at the cursor and moves the
    cursor behind it; it is undefined exactly when the encoding does not
    fit. *)
Lemma write_value_eq v b :
  buffer_ok b -> write_value v b = put_bytes (encode v) b.
Proof.
  intros Hb.
  destruct v as [T HT x | str | T HT xs | R HR xs]; cbn [write_value encode].
  4:{ unfold write_vector_bool, buf_bind. rewrite put_bytes_app.
      rewrite write_eq by exact Hb.
      destruct (put_bytes _ b) as [[[] b1]|] eqn:E; [|reflexivity].
      apply write_each_eq. eapply put_bytes_ok; eassumption. }
  - apply write_eq, Hb.
  - unfold write_string, buf_bind. rewrite put_bytes_app.
    rewrite write_each_eq by exact Hb.
    change (encode_each str) with (flat_map (fun c : byte => [c]) str).
    replace (flat_map (fun c : byte => [c]) str) with str
      by (induction str as [|c r IHr]; simpl; congruence).
    destruct (put_bytes str b) as [[[] b1]|] eqn:E; [|reflexivity].
    change [x00] with (repr x00).
    apply write_eq. eapply put_bytes_ok; eassumption.
  - unfold write_vector, buf_bind. rewrite put_bytes_app.
    rewrite write_eq by exact Hb.
    destruct (put_bytes _ b) as [[[] b1]|] eqn:E; [|reflexivity].
    apply write_each_eq. eapply put_bytes_ok; eassumption.
Qed.

Lemma write_all_eq vs b :
  buffer_ok b -> write_all vs b = put_bytes (flat_map encode vs) b.
Proof.
  revert b. induction vs as [|v vs IH]; intros b Hb.
  - simpl. unfold buf_ret. symmetry. apply put_bytes_nil, Hb.
  - simpl. rewrite put_bytes_app. unfold buf_bind.
    rewrite write_value_eq by exact Hb.
    destruct (put_bytes (encode v) b) as [[[] b1]|] eqn:E; [|reflexivity].
    apply IH. eapply put_bytes_ok; eassumption.
Qed.

(** The size pass adds the length of the encoding, in [std::size_t]. *)
Lemma scale_value_size v s :
  by_value v ->
  size (scale_value v s) = to_size_t (size s + Z.of_nat (length (encode v))).
Proof.
  intros Hv.
  destruct v as [T HT x | str | T HT xs | R HR xs]; [| | |destruct Hv];
    cbn [scale_value encode];
    unfold scale_fixed, scale_string, scale_vector, size_add, size_mul;
    cbn [size].
  - rewrite length_repr. reflexivity.
  - rewrite length_app. cbn [length sizeof char_fixed].
    rewrite to_size_t_mul_l, to_size_t_add_r. f_equal. lia.
  - rewrite length_app, length_encode_each, length_repr.
    rewrite to_size_t_add_r, Z.add_assoc, to_size_t_add_r. f_equal. lia.
Qed.

Lemma size_t_modulus_pos : 0 < size_t_modulus.
Proof. pose proof size_t_modulus_ge. lia. Qed.

Lemma scale_all_size vs s :
  Forall by_value vs ->
  0 <= size s < size_t_modulus ->
  size (scale_all vs s) =
  to_size_t (size s + Z.of_nat (length (flat_map encode vs))).
Proof.
  unfold scale_all. intros Hvs. revert s.
  induction Hvs as [|v vs Hv Hvs IH]; intros s Hs.
  - simpl. rewrite Z.add_0_r, to_size_t_small by exact Hs. reflexivity.
  - cbn [fold_left flat_map]. rewrite IH.
    + rewrite scale_value_size, to_size_t_add_l, length_app by exact Hv.
      f_equal. lia.
    + rewrite scale_value_size by exact Hv.
      apply Z.mod_pos_bound, size_t_modulus_pos.
Qed.

(** Reading back at the place of a write. *)
Lemma memcpy_from_at mem i pre post rest :
  0 <= i <= Z.of_nat (length mem) ->
  drop (Z.to_nat i) mem = pre ++ post ++ rest ->
  memcpy_from mem (i + Z.of_nat (length pre)) (Z.of_nat (length post)) = Some post.
Proof.
  intros Hi Hd.
  assert (Hl : (length mem - Z.to_nat i)%nat
               = (length pre + (length post + length rest))%nat).
  { rewrite <- length_drop, Hd, !length_app. reflexivity. }
  rewrite memcpy_from_fits by lia. f_equal.
  replace (Z.to_nat (i + Z.of_nat (length pre)))
    with (Z.to_nat i + length pre)%nat by lia.
  rewrite <- drop_drop, Hd, drop_app_length, Nat2Z.id.
  apply take_app_length.
Qed.

Lemma read_write {T} `{FixedWidth T} (v : T) b b' :
  write v b = Some (tt, b') -> read (rewind b b') = Some (v, b').
Proof.
  unfold write. destruct (memcpy_to _ _ _) as [mem|] eqn:E; [|discriminate].
  intros [= <-]. unfold read, rewind; cbn [buffer index].
  apply memcpy_from_to in E. rewrite length_repr in E. rewrite E.
  rewrite unrepr_repr. reflexivity.
Qed.

Lemma c_str_app (str : string) rest :
  x00 ∉ str -> c_str (str ++ x00 :: rest) = Some str.
Proof.
  induction str as [|c str IH]; intros Hn; [reflexivity|].
  apply not_elem_of_cons in Hn as [Hc Hn]. simpl.
  destruct (Byte.eqb c x00) eqn:Ec.
  - apply Byte.byte_dec_bl in Ec. congruence.
  - rewrite IH by exact Hn. reflexivity.
Qed.

Lemma read_write_string (str : string) b b' :
  buffer_ok b -> x00 ∉ str ->
  write_string str b = Some (tt, b') ->
  read_string (rewind b b') = Some (str, b').
Proof.
  intros Hb Hn Hw. pose proof (buffer_ok_lt _ Hb) as [Hi Hm].
  change (write_string str b) with (write_value (Str str) b) in Hw.
  rewrite write_value_eq in Hw by exact Hb. cbn [encode] in Hw.
  apply put_bytes_Some in Hw as [Hc Hidx].
  pose proof (drop_memcpy_to _ _ _ _ Hc) as Hd.
  apply memcpy_to_Some in Hc as (_ & Hfit & _ & Hlen).
  rewrite length_app in Hfit, Hidx. cbn [length] in Hfit, Hidx.
  unfold read_string, rewind; cbn [buffer index].
  replace (0 <=? index b) with true by (symmetry; apply Z.leb_le; lia).
  rewrite Hd, <- app_assoc. cbn [app]. rewrite c_str_app by exact Hn.
  unfold size_add, size_mul. cbn [sizeof char_fixed].
  rewrite (to_size_t_small (Z.of_nat (length str) + 1)) by lia.
  rewrite (to_size_t_small ((Z.of_nat (length str) + 1) * _)) by lia.
  rewrite to_size_t_small by lia.
  destruct b' as [mem' i']; cbn [buffer index] in *. subst i'.
  do 3 f_equal. lia.
Qed.

Lemma elements_encode_each {T} `{FixedWidth T} (xs : list T) rest :
  elements (length xs) (encode_each xs ++ rest) = xs.
Proof.
  induction xs as [|x xs IH]; [reflexivity|].
  change (encode_each (x :: xs)) with (repr x ++ encode_each xs).
  cbn [length elements]. rewrite <- app_assoc.
  rewrite take_app_length' by (symmetry; apply length_repr).
  rewrite drop_app_length' by (symmetry; apply length_repr).
  rewrite unrepr_repr, IH. reflexivity.
Qed.

Lemma read_write_vector {T} `{FixedWidth T} (xs : list T) b b' :
  buffer_ok b -> Z.of_nat (length xs) <= INT_MAX ->
  write_vector xs b = Some (tt, b') ->
  read_vector (rewind b b') = Some (xs, b').
Proof.
  intros Hb Hn Hw. pose proof (buffer_ok_lt _ Hb) as [Hi Hm].
  change (write_vector xs b) with (write_value (Vec xs) b) in Hw.
  rewrite write_value_eq in Hw by exact Hb. cbn [encode] in Hw.
  apply put_bytes_Some in Hw as [Hc Hidx].
  pose proof (drop_memcpy_to _ _ _ _ Hc) as Hd.
  apply memcpy_to_Some in Hc as (_ & Hfit & _ & Hlen).
  rewrite length_app, length_repr, length_encode_each in Hfit, Hidx.
  cbn [sizeof int_fixed] in Hfit, Hidx.
  assert (Hcount : int_val (int_cast (Z.of_nat (length xs)))
                   = Z.of_nat (length xs)).
  { apply to_int_small. unfold INT_MIN. lia. }
  assert (Hmax : INT_MAX < size_t_modulus).
  { pose proof size_t_modulus_ge. unfold INT_MAX. lia. }
  unfold read_vector, buf_bind, read, rewind; cbn [buffer index].
  rewrite <- app_assoc in Hd.
  pose proof (memcpy_from_at (buffer b') (index b) [] _ _
                ltac:(lia) Hd) as Hr1.
  rewrite length_repr in Hr1. cbn [length sizeof int_fixed] in Hr1 |- *.
  rewrite Z.add_0_r in Hr1. rewrite Hr1, unrepr_repr, Hcount.
  rewrite (to_size_t_small (Z.of_nat (length xs))) by lia.
  replace (max_size T <? Z.of_nat (length xs)) with false.
  2:{ symmetry. apply Z.ltb_ge. unfold max_size.
      pose proof (sizeof_pos (T := T)). destruct Hb as [_ Hp].
      apply Z.div_le_lower_bound; lia. }
  cbn [buffer index]. unfold size_add, size_mul.
  change (Z.of_nat 4) with 4 in *.
  rewrite (to_size_t_small (index b + 4)) by lia.
  rewrite (to_size_t_small (Z.of_nat (sizeof T) * _)) by lia.
  rewrite (to_size_t_small (Z.of_nat (length xs) * _)) by lia.
  rewrite to_size_t_small by lia.
  pose proof (memcpy_from_at (buffer b') (index b) (repr (int_cast _))
                (encode_each xs) _ ltac:(lia) Hd) as Hr2.
  rewrite length_repr, length_encode_each in Hr2.
  cbn [sizeof int_fixed] in Hr2. change (Z.of_nat 4) with 4 in Hr2.
  replace (Z.of_nat (sizeof T) * Z.of_nat (length xs))
    with (Z.of_nat (length xs * sizeof T)) by lia.
  rewrite Hr2, Nat2Z.id.
  rewrite <- (app_nil_r (encode_each xs)), elements_encode_each.
  destruct b' as [mem' i']; cbn [buffer index] in *. subst i'.
  do 3 f_equal. lia.
Qed.

(** There is room for the encoding of [v] behind the cursor. *)
Definition fits (bytes : list byte) (b : memory_buffer) : Prop :=
  index b + Z.of_nat (length bytes) <= Z.of_nat (length (buffer b)).

Lemma put_bytes_fits bytes b :
  buffer_ok b -> fits bytes b -> exists b', put_bytes bytes b = Some (tt, b').
Proof.
  intros [Hi Hm] Hf. unfold put_bytes.
  rewrite memcpy_to_fits by (unfold fits in Hf; lia). eauto.
Qed.

Lemma put_bytes_frame bytes b b' :
  put_bytes bytes b = Some (tt, b') ->
  take (Z.to_nat (index b)) (buffer b') = take (Z.to_nat (index b)) (buffer b) /\
  take (length bytes) (drop (Z.to_nat (index b)) (buffer b')) = bytes /\
  drop (Z.to_nat (index b')) (buffer b') = drop (Z.to_nat (index b')) (buffer b).
Proof.
  intros Hp. apply put_bytes_Some in Hp as [Hc Hidx].
  pose proof (drop_memcpy_to _ _ _ _ Hc) as Hd.
  apply memcpy_to_Some in Hc as (Hi & Hfit & Hmem & Hlen).
  split; [|split].
  - rewrite Hmem. rewrite take_app_length'; [reflexivity|].
    rewrite length_take. lia.
  - rewrite Hd. apply take_app_length.
  - rewrite Hidx.
    replace (Z.to_nat (index b + Z.of_nat (length bytes)))
      with (Z.to_nat (index b) + length bytes)%nat by lia.
    rewrite <- (drop_drop (buffer b')), Hd. apply drop_app_length.
Qed.

(** C1, as amended.  In a buffer with room for the encoding, [<<] is
    defined, and [>>] at the cursor position of the write and at the same
    type gives the value back and leaves the cursor where the write left
    it: for every fixed-width value; for every string that holds no NUL
    byte; for every vector of fixed-width elements whose element count is
    at most [INT_MAX]. *)
Theorem serialize_roundtrip (b : memory_buffer) :
  buffer_ok b ->
  (forall T (HT : FixedWidth T) (v : T),
      fits (encode (Fixed v)) b ->
      exists b', write v b = Some (tt, b') /\
                 read (rewind b b') = Some (v, b')) /\
  (forall str : string,
      x00 ∉ str -> fits (encode (Str str)) b ->
      exists b', write_string str b = Some (tt, b') /\
                 read_string (rewind b b') = Some (str, b')) /\
  (forall T (HT : FixedWidth T) (xs : list T),
      Z.of_nat (length xs) <= INT_MAX -> fits (encode (Vec xs)) b ->
      exists b', write_vector xs b = Some (tt, b') /\
                 read_vector (rewind b b') = Some (xs, b')).
Proof.
  intros Hb. split; [|split].
  - intros T HT v Hf.
    destruct (put_bytes_fits _ _ Hb Hf) as [b' Hp].
    rewrite <- (write_value_eq (Fixed v)) in Hp by exact Hb.
    exists b'. split; [exact Hp | apply read_write, Hp].
  - intros str Hn Hf.
    destruct (put_bytes_fits _ _ Hb Hf) as [b' Hp].
    rewrite <- (write_value_eq (Str str)) in Hp by exact Hb.
    exists b'. split; [exact Hp | apply read_write_string; assumption].
  - intros T HT xs Hn Hf.
    destruct (put_bytes_fits _ _ Hb Hf) as [b' Hp].
    rewrite <- (write_value_eq (Vec xs)) in Hp by exact Hb.
    exists b'. split; [exact Hp | apply read_write_vector; assumption].
Qed.

(** X29.  For every sequence of fixed-width values, strings and vectors
    other than [std::vector<bool>], the size that [scale] accumulates over
    the sequence is the number of bytes by which the cursor of a
    [memory_buffer] advances when the same values are written in the same
    order; the writes are defined whenever that many bytes fit behind the
    cursor. *)
Theorem scale_is_cursor_advance (vs : list value) (b : memory_buffer) :
  Forall by_value vs -> buffer_ok b ->
  (forall b', write_all vs b = Some (tt, b') ->
              size (scale_all vs {| size := 0 |}) = index b' - index b) /\
  (fits (flat_map encode vs) b -> exists b', write_all vs b = Some (tt, b')).
Proof.
  intros Hvs Hb. pose proof (buffer_ok_lt _ Hb) as [Hi Hm]. split.
  - intros b' Hw. rewrite write_all_eq in Hw by exact Hb.
    apply put_bytes_Some in Hw as [Hc Hidx].
    apply memcpy_to_Some in Hc as (_ & Hfit & _ & _).
    rewrite scale_all_size
      by (try exact Hvs; cbn [size]; pose proof size_t_modulus_pos; lia).
    cbn [size]. rewrite to_size_t_small by lia. lia.
  - intros Hf. rewrite write_all_eq by exact Hb.
    apply put_bytes_fits; assumption.
Qed.

(** C3, as amended.  Serializing a string writes the bytes of the string
    followed by one NUL byte and nothing else: [size() + 1] bytes at the
    cursor, which advances by as many, the rest of the buffer untouched,
    and no length field; the size pass counts the same [size() + 1]
    bytes. *)
Theorem string_serialized_form (str : string) (b : memory_buffer) :
  buffer_ok b -> fits (str ++ [x00]) b ->
  exists b',
    write_string str b = Some (tt, b') /\
    take (length str + 1) (drop (Z.to_nat (index b)) (buffer b')) = str ++ [x00] /\
    index b' = index b + Z.of_nat (length str) + 1 /\
    take (Z.to_nat (index b)) (buffer b') = take (Z.to_nat (index b)) (buffer b) /\
    drop (Z.to_nat (index b')) (buffer b') = drop (Z.to_nat (index b')) (buffer b) /\
    size (scale_string str {| size := 0 |}) = Z.of_nat (length str) + 1.
Proof.
  intros Hb Hf. pose proof (buffer_ok_lt _ Hb) as [Hi Hm].
  destruct (put_bytes_fits _ _ Hb Hf) as [b' Hp].
  exists b'. split.
  { change (write_string str b) with (write_value (Str str) b).
    rewrite write_value_eq by exact Hb. exact Hp. }
  destruct (put_bytes_frame _ _ _ Hp) as (Hpre & Hmid & Hpost).
  apply put_bytes_Some in Hp as [_ Hidx].
  unfold fits in Hf. rewrite length_app in Hf, Hidx, Hmid.
  cbn [length] in Hf, Hidx, Hmid.
  repeat split; try assumption; [lia|].
  change (scale_string str {| size := 0 |})
    with (scale_value (Str str) {| size := 0 |}).
  rewrite scale_value_size by exact I. cbn [size encode].
  rewrite length_app. cbn [length]. rewrite to_size_t_small; lia.
Qed.

End Facts.

(** A vector of [2 ^ 31] elements is written with a negative count, and a
    negative count makes the reader throw. *)
Lemma int_cast_wraps : int_val (int_cast (2 ^ 31)) = - 2 ^ 31.
Proof. reflexivity. Qed.

Lemma read_vector_negative_count `{Platform} {T} `{FixedWidth T} b c b1 :
  read (T := int) b = Some (c, b1) -> int_val c < 0 -> read_vector (T := T) b = None.
Proof.
  intros Hr Hc. unfold read_vector, buf_bind. rewrite Hr.
  pose proof (int_val_bounds c) as Hb. unfold INT_MIN in Hb.
  pose proof size_t_modulus_ge as Hge.
  pose proof size_t_modulus_ptrdiff as Hp.
  pose proof (sizeof_pos (T := T)) as Hs.
  assert (Hn : to_size_t (int_val c) = size_t_modulus + int_val c).
  { unfold to_size_t.
    rewrite <- (Z.mod_add _ 1) by lia. rewrite Z.mod_small; lia. }
  rewrite Hn.
  replace (max_size T <? size_t_modulus + int_val c) with true; [reflexivity|].
  symmetry. apply Z.ltb_lt. unfold max_size.
  apply Z.le_lt_trans with ptrdiff_max; [|lia].
  apply Z.div_le_upper_bound; nia.
Qed.

Lemma buffer_ok_new (P : Platform) (n : nat) :
  Z.of_nat n <= @ptrdiff_max P -> @buffer_ok P (new_buffer n).
Proof.
  intros Hn. unfold buffer_ok, new_buffer; cbn [buffer index].
  rewrite length_replicate. lia.
Qed.

Lemma write_vector_eq `{Platform} {T} `{FixedWidth T} (xs : list T) b :
  buffer_ok b -> write_vector xs b = put_bytes (encode (Vec xs)) b.
Proof. apply (write_value_eq (Vec xs)). Qed.

(** After a vector was written, an [int] read at the cursor of the write
    is its element count as the cast to [int] made it. *)
Lemma read_count_written `{Platform} {T} `{FixedWidth T} (xs : list T) b b' :
  buffer_ok b -> write_vector xs b = Some (tt, b') ->
  exists b1,
    read (T := int) (rewind b b')
    = Some (int_cast (Z.of_nat (length xs)), b1).
Proof.
  intros Hb Hw. pose proof (buffer_ok_lt _ Hb) as [Hi Hm].
  change (write_vector xs b) with (write_value (Vec xs) b) in Hw.
  rewrite write_value_eq in Hw by exact Hb. cbn [encode] in Hw.
  apply put_bytes_Some in Hw as [Hc _].
  pose proof (drop_memcpy_to _ _ _ _ Hc) as Hd.
  apply memcpy_to_Some in Hc as (_ & _ & _ & Hlen).
  rewrite <- app_assoc in Hd.
  pose proof (memcpy_from_at (buffer b') (index b) [] _ _
                ltac:(lia) Hd) as Hr.
  rewrite length_repr in Hr. cbn [length] in Hr. rewrite Z.add_0_r in Hr.
  unfold read, rewind; cbn [buffer index]. rewrite Hr, unrepr_repr. eauto.
Qed.

(** The same on a vector of [2 ^ 31] elements: it is written, with the
    count [- 2 ^ 31], and cannot be read back. *)
Lemma roundtrip_vector_above_int_max :
  exists b',
    @write_vector host64 byte _ (replicate (Z.to_nat 2147483648) x00)
                  (new_buffer (Z.to_nat 2147483652)) = Some (tt, b') /\
    @read_vector host64 byte _
                 (rewind (new_buffer (Z.to_nat 2147483652)) b') = None.
Proof.
  assert (Hb : @buffer_ok host64 (new_buffer (Z.to_nat 2147483652))).
  { apply buffer_ok_new. rewrite Z2Nat.id by lia.
    change (@ptrdiff_max host64) with 9223372036854775807. lia. }
  destruct (@put_bytes_fits host64
              (encode (Vec (replicate (Z.to_nat 2147483648) x00)))
              (new_buffer (Z.to_nat 2147483652)) Hb) as [b' Hp].
  { unfold fits, new_buffer; cbn [encode buffer index].
    rewrite length_app, length_repr, length_encode_each, !length_replicate.
    cbn [sizeof int_fixed char_fixed]. lia. }
  rewrite <- (@write_vector_eq host64) in Hp by exact Hb.
  exists b'. split; [exact Hp|].
  destruct (@read_count_written host64 byte _ _ _ _ Hb Hp) as [b1 Hr].
  apply (@read_vector_negative_count host64 byte _ _ _ _ Hr).
  unfold int_cast; cbn [int_val].
  rewrite length_replicate, Z2Nat.id by lia. split.
Qed.

(** C1 as stated fails on a string that holds a NUL byte: the three bytes
    a, NUL, b are written with a terminator, four bytes in all, and the
    reader at the same cursor gives back the string a and stops two bytes
    on. *)
Lemma roundtrip_string_with_nul :
  @write_string host64 [x61; x00; x62] (new_buffer 8)
  = Some (tt, {| buffer := [x61; x00; x62; x00; x00; x00; x00; x00];
                 index := 4 |}) /\
  @read_string host64
    (rewind (new_buffer 8)
       {| buffer := [x61; x00; x62; x00; x00; x00; x00; x00]; index := 4 |})
  = Some ([x61], {| buffer := [x61; x00; x62; x00; x00; x00; x00; x00];
                    index := 2 |}) /\
  [x61] <> [x61; x00; x62].
Proof. split; [reflexivity|]. split; [reflexivity|]. discriminate. Qed.

(** C3 as stated fails: the serialized form of the string ab is the three
    bytes a, b, NUL; nothing precedes the bytes of the string, so no
    count field of any width does. *)
Lemma string_form_has_no_count :
  @write_string host64 [x61; x62] (new_buffer 8)
  = Some (tt, {| buffer := [x61; x62; x00; x00; x00; x00; x00; x00];
                 index := 3 |}) /\
  forall count : list byte,
    count <> [] -> [x61; x62; x00] <> count ++ [x61; x62] ++ [x00].
Proof.
  split; [reflexivity|].
  intros count Hne Heq. apply (f_equal length) in Heq.
  rewrite length_app in Heq. destruct count; [congruence|].
  simpl in Heq. lia.
Qed.

Lemma serialize_roundtrip_witness :
  (exists b', @write host64 _ _ (int_cast 7) (new_buffer 16) = Some (tt, b') /\
              @read host64 _ _ (rewind (new_buffer 16) b') = Some (int_cast 7, b')) /\
  (exists b', @write_string host64 [x61; x62] (new_buffer 16) = Some (tt, b') /\
              @read_string host64 (rewind (new_buffer 16) b') = Some ([x61; x62], b')) /\
  (exists b', @write_vector host64 _ _ [int_cast 10; int_cast 20; int_cast 30] (new_buffer 16)
              = Some (tt, b') /\
              @read_vector host64 _ _ (rewind (new_buffer 16) b')
              = Some ([int_cast 10; int_cast 20; int_cast 30], b')).
Proof.
  assert (Hb : @buffer_ok host64 (new_buffer 16))
    by (apply buffer_ok_new; discriminate).
  destruct (@serialize_roundtrip host64 (new_buffer 16) Hb) as (H1 & H2 & H3).
  split; [|split].
  - apply H1. unfold fits; simpl; lia.
  - apply H2.
    + rewrite !not_elem_of_cons. repeat split; try discriminate.
      apply not_elem_of_nil.
    + unfold fits; simpl; lia.
  - apply H3.
    + simpl. unfold INT_MAX. lia.
    + unfold fits; simpl; lia.
Defined.

(** A [std::vector<bool>] of three elements on the Epiphany, each with
    its proxy: a pointer to the word that holds the bit and a mask, 8
    bytes. *)
Definition three_bits : value :=
  VecBool (R := int * int)
    [(true, (int_cast 4096, int_cast 1));
     (false, (int_cast 4096, int_cast 2));
     (true, (int_cast 4096, int_cast 4))].

(** C2 fails on a [std::vector<bool>]: the size pass counts [sizeof(int)]
    and one byte for each of the three elements, 7 bytes; the write
    copies the count and three proxies of 8 bytes, 28 bytes.  It runs over
    the end of a buffer of the size computed, and in a buffer that is
    large enough it moves the cursor by 28. *)
Theorem scale_misses_vector_bool :
  size (@scale_all epiphany32 [three_bits] {| size := 0 |}) = 7 /\
  @write_all epiphany32 [three_bits] (new_buffer 7) = None /\
  option_map (fun r => index (snd r))
             (@write_all epiphany32 [three_bits] (new_buffer 28))
  = Some 28.
Proof. repeat split; vm_compute; reflexivity. Qed.

Lemma scale_is_cursor_advance_witness :
  exists b',
    @write_all host64 [Fixed (int_cast 7); Str [x61; x62]; Vec [x01; x02; x03]]
               (new_buffer 16) = Some (tt, b') /\
    size (@scale_all host64
            [Fixed (int_cast 7); Str [x61; x62]; Vec [x01; x02; x03]]
            {| size := 0 |}) = index b' - index (new_buffer 16).
Proof.
  assert (Hb : @buffer_ok host64 (new_buffer 16))
    by (apply buffer_ok_new; discriminate).
  destruct (@scale_is_cursor_advance host64
              [Fixed (int_cast 7); Str [x61; x62]; Vec [x01; x02; x03]]
              (new_buffer 16) ltac:(repeat constructor) Hb) as [H1 H2].
  destruct H2 as [b' Hw]; [unfold fits; simpl; lia|].
  exists b'. split; [exact Hw | exact (H1 b' Hw)].
Defined.

Lemma string_serialized_form_witness :
  exists b',
    @write_string host64 [x61; x62] (new_buffer 8) = Some (tt, b') /\
    take 3 (drop 0 (buffer b')) = [x61; x62; x00] /\
    index b' = 3 /\
    take 0 (buffer b') = take 0 (buffer (new_buffer 8)) /\
    drop (Z.to_nat (index b')) (buffer b')
    = drop (Z.to_nat (index b')) (buffer (new_buffer 8)) /\
    size (@scale_string host64 [x61; x62] {| size := 0 |}) = 3.
Proof.
  apply (@string_serialized_form host64 [x61; x62] (new_buffer 8)).
  - apply buffer_ok_new. discriminate.
  - unfold fits; simpl; lia.
Defined.

End Serialize.

(** ** Message queues: [bulk::queue], its [sender] and its [impl] *)

Module Queue.
Import Machine Serialize.

(** What the queue takes from its [message_type]: [sizeof(message_type)]
    and the value-initialized [message_type{}]. *)
Class MessageType (M : Type) := {
  sizeof_message : Z;
  sizeof_message_pos : 0 < sizeof_message;
  message_init : M
}.
Arguments sizeof_message M {_}.

(** [queue::impl]: the local delivery buffer [data_] and the id the world
    registered the queue under. *)
Record impl (M : Type) := { data_ : list M; id_ : Z }.
Arguments data_ {M} _.
Arguments id_ {M} _.

(** [queue::sender]: the queue and the target processor it is bound to. *)
Record sender (M : Type) := { q_ : impl M; t_ : Z }.
Arguments q_ {M} _.
Arguments t_ {M} _.

(** [auto operator()(int t)] *)
Definition queue_call {M} (q : impl M) (t : Z) : sender M :=
  {| q_ := q; t_ := t |}.

(** [size_t size()] and [bool empty()] *)
Definition size {M} (q : impl M) : Z := Z.of_nat (length (data_ q)).

Definition empty {M} (q : impl M) : bool :=
  match data_ q with
  | [] => true
  | _ :: _ => false
  end.

(** *** Sending.  The world is an interface the queue is handed; its
    [send_(t, id, &m, sizeof(m))] is a parameter here. *)

Section Sending.
Context {M : Type} `{MessageType M}.
Context {World : Type}.
Variable world_send_ : Z -> Z -> M -> Z -> World -> World.

(** [void impl::send_(int t, message_type m)] *)
Definition send_ (q : impl M) (t : Z) (m : M) (w : World) : World :=
  world_send_ t (id_ q) m (sizeof_message M) w.

(** [template <typename... Us> void sender::send(Us... args)], the
    message being the tuple of the arguments. *)
Definition send (s : sender M) (msg : M) (w : World) : World :=
  send_ (q_ s) (t_ s) msg w.

(** [void sender::send(std::vector<message_type> msgs)] *)
Fixpoint send_all (s : sender M) (msgs : list M) (w : World) : World :=
  match msgs with
  | [] => w
  | msg :: msgs' => send_all s msgs' (send_ (q_ s) (t_ s) msg w)
  end.

End Sending.

(** A world that only records the calls of [send_] it receives, oldest
    first. *)
Record send_call (M : Type) := {
  call_target : Z;
  call_queue : Z;
  call_payload : M;
  call_size : Z
}.
Arguments call_target {M} _.
Arguments call_queue {M} _.
Arguments call_payload {M} _.
Arguments call_size {M} _.

Definition record_send_ {M} (t id : Z) (m : M) (size : Z)
    (calls : list (send_call M)) : list (send_call M) :=
  calls ++ [{| call_target := t; call_queue := id; call_payload := m;
               call_size := size |}].

(** *** The delivery hooks of [queue_base] *)

Section Hooks.
Context `{Platform}.
Context {M : Type} `{MessageType M}.

(** [std::vector<message_type>::max_size()] *)
Definition max_messages : Z := ptrdiff_max / sizeof_message M.

(** [void* get_buffer_(int size_in_bytes)].  A pointer into [data_] is
    the number of the slot it points to.  [data_[0]] on a vector that
    holds nothing is undefined: there is no element 0 to take the address
    of. *)
Definition get_buffer_ (size_in_bytes : Z) (q : impl M) : option (nat * impl M) :=
  let n := to_size_t size_in_bytes / sizeof_message M in
  if max_messages <? n then None
  else if n =? 0 then None
  else Some (0%nat, {| data_ := resize (Z.to_nat n) message_init (data_ q);
                       id_ := id_ q |}).

(** [void unsafe_push_back(void* msg)], [msg] pointing to the message
    [m]. *)
Definition unsafe_push_back (m : M) (q : impl M) : impl M :=
  {| data_ := data_ q ++ [m]; id_ := id_ q |}.

(** [void clear_()] *)
Definition clear_ (q : impl M) : impl M := {| data_ := []; id_ := id_ q |}.

End Hooks.

(** *** Array-valued messages: the first content type is [E[]], the
    message a [std::vector<E>] followed by the fields [Ts...]. *)

Record array_message (E Tail : Type) := { content : list E; fields : Tail }.
Arguments content {E Tail} _.
Arguments fields {E Tail} _.

(** Whether the queue has content types after the array
    ([sizeof...(Ts) > 0]): its message is then a tuple that starts with the
    vector, and is the vector itself otherwise. *)
Class Further (Tail : Type) := further : bool.

#[export] Instance no_further : Further unit := false.

Section ArrayQueue.
Context `{Platform}.
Context {E : Type} `{FixedWidth E} {Tail : Type} `{Further Tail}.
Variable tail_init : Tail.

(** A value-initialized element: all bytes zero. *)
Definition element_init : E := unrepr (replicate (sizeof E) x00).

(** [message_type{}] *)
Definition array_message_init : array_message E Tail :=
  {| content := []; fields := tail_init |}.

(** [void unsafe_push_array(int count, size_t size, void* data,
    size_t size_of_other, void* other)].  [data] is the memory behind the
    pointer, [other] the message behind the other pointer, [None] for
    [nullptr].  With [size_of_other == 0] the code takes the address of the
    pushed message for the address of a vector, which it is in a queue
    without further fields, the queues whose [send_many] passes 0; in a
    queue with further fields the message is a tuple, and using it as a
    vector is undefined.  With another [size_of_other] the code takes the
    first component of the tuple. *)
Definition unsafe_push_array (count size : Z) (data : list byte)
    (size_of_other : Z) (other : option (array_message E Tail))
    (q : impl (array_message E Tail)) : option (impl (array_message E Tail)) :=
  pushed ← (if size_of_other =? 0
            then if further then None else Some array_message_init
            else other);
  let n := to_size_t count in
  if max_size E <? n then None
  else
    let msg := resize (Z.to_nat n) element_init (content pushed) in
    bytes ← memcpy_from data 0 (size_mul size (to_size_t count));
    storage ← memcpy_to (encode_each msg) 0 bytes;
    Some {| data_ := data_ q
                     ++ [{| content := elements (Z.to_nat n) storage;
                            fields := fields pushed |}];
            id_ := id_ q |}.

End ArrayQueue.

Section QueueFacts.
Context `{Platform}.

Lemma send_all_fold {M} `{MessageType M} {World}
    (world_send_ : Z -> Z -> M -> Z -> World -> World) (s : sender M) msgs w :
  send_all world_send_ s msgs w
  = fold_left (fun w' msg => send world_send_ s msg w') msgs w.
Proof.
  revert w. induction msgs as [|msg msgs IH]; intros w; [reflexivity|].
  cbn [send_all fold_left]. rewrite IH. reflexivity.
Qed.

Lemma ptrdiff_max_ge : INT_MAX <= ptrdiff_max.
Proof.
  pose proof size_t_modulus_ge. pose proof size_t_modulus_ptrdiff.
  unfold INT_MAX. lia.
Qed.

(** C4.  For every sender (a queue and the processor it is bound to) and
    every list of messages, the vector overload of [send] leaves every
    world in the state that one single-message [send] per element, in list
    order, leaves it in; a world that records its [send_] calls is handed
    one call per message, in list order, each to the sender's target and
    the queue's id. *)
Theorem send_vector_is_repeated_send {M} `{MessageType M} (s : sender M) (msgs : list M) :
  (forall (World : Type) (world_send_ : Z -> Z -> M -> Z -> World -> World)
          (w : World),
      send_all world_send_ s msgs w
      = fold_left (fun w' msg => send world_send_ s msg w') msgs w) /\
  (forall calls : list (send_call M),
      send_all record_send_ s msgs calls
      = calls ++ map (fun msg => {| call_target := t_ s;
                                    call_queue := id_ (q_ s);
                                    call_payload := msg;
                                    call_size := sizeof_message M |}) msgs).
Proof.
  split.
  - intros World world_send_ w. apply send_all_fold.
  - induction msgs as [|msg msgs IH]; intros calls.
    + simpl. rewrite app_nil_r. reflexivity.
    + cbn [send_all map]. rewrite IH. unfold send_, record_send_.
      rewrite <- app_assoc. reflexivity.
Qed.

Lemma memcpy_over {E} `{FixedWidth E} (old new : list E) :
  length old = length new ->
  memcpy_to (encode_each old) 0 (encode_each new) = Some (encode_each new).
Proof.
  intros Hl. rewrite memcpy_to_fits.
  - cbn [Z.to_nat take app Nat.add]. rewrite drop_ge, app_nil_r; [reflexivity|].
    rewrite !length_encode_each, Hl. lia.
  - lia.
  - rewrite !length_encode_each, Hl. lia.
Qed.

Lemma push_array_pushed {E} `{FixedWidth E} {Tail} (tail_init : Tail)
    (elems : list E) (rest : list byte) (pushed : array_message E Tail) q :
  Z.of_nat (length elems) <= INT_MAX ->
  Z.of_nat (length elems * sizeof E) <= ptrdiff_max ->
  (if max_size E <? to_size_t (Z.of_nat (length elems)) then None
   else
     let msg := resize (Z.to_nat (to_size_t (Z.of_nat (length elems))))
                       element_init (content pushed) in
     bytes ← memcpy_from (encode_each elems ++ rest) 0
               (size_mul (Z.of_nat (sizeof E))
                         (to_size_t (Z.of_nat (length elems))));
     storage ← memcpy_to (encode_each msg) 0 bytes;
     Some {| data_ := data_ q
                      ++ [{| content :=
                               elements
                                 (Z.to_nat (to_size_t (Z.of_nat (length elems))))
                                 storage;
                             fields := fields pushed |}];
             id_ := id_ q |})
  = Some {| data_ := data_ q ++ [{| content := elems; fields := fields pushed |}];
            id_ := id_ q |}.
Proof.
  intros Hn Hbytes.
  pose proof size_t_modulus_ptrdiff as Hp. pose proof ptrdiff_max_ge as Hge.
  pose proof (sizeof_pos (T := E)) as Hs.
  rewrite (to_size_t_small (Z.of_nat (length elems))) by lia.
  replace (max_size E <? Z.of_nat (length elems)) with false.
  2:{ symmetry. apply Z.ltb_ge. unfold max_size.
      apply Z.div_le_lower_bound; lia. }
  cbn zeta. unfold size_mul. rewrite to_size_t_small by lia.
  rewrite memcpy_from_fits; [| lia | lia |].
  2:{ rewrite length_app, length_encode_each. lia. }
  change (Z.to_nat 0) with 0%nat. rewrite drop_0.
  replace (Z.to_nat (Z.of_nat (sizeof E) * Z.of_nat (length elems)))
    with (length (encode_each elems)) by (rewrite length_encode_each; lia).
  rewrite take_app_length. cbn [mbind option_bind].
  rewrite memcpy_over by (rewrite length_resize; lia).
  cbn [mbind option_bind].
  rewrite Nat2Z.id, <- (app_nil_r (encode_each elems)), elements_encode_each.
  reflexivity.
Qed.

(** C5, as amended.  For an array-valued message delivered through
    [unsafe_push_array] with the element count, the element size and the
    memory holding the elements, either to a queue without further fields
    and without another message (size 0), or to a queue with the other
    message that holds the trailing fields (another size): exactly one
    message is appended to the local delivery buffer and its array content
    is the given elements in order; in the first case that is all of the
    message, in the second its remaining fields are those of the message
    supplied.  Size 0 on a queue with further fields is undefined. *)
Theorem unsafe_push_array_spec {E} `{FixedWidth E} {Tail} `{Further Tail}
    (tail_init : Tail)
    (elems : list E) (rest : list byte) (q : impl (array_message E Tail)) :
  Z.of_nat (length elems) <= INT_MAX ->
  Z.of_nat (length elems * sizeof E) <= ptrdiff_max ->
  (forall other,
      unsafe_push_array tail_init (Z.of_nat (length elems))
        (Z.of_nat (sizeof E)) (encode_each elems ++ rest) 0 other q
      = if further then None
        else Some {| data_ := data_ q
                              ++ [{| content := elems; fields := tail_init |}];
                     id_ := id_ q |}) /\
  (forall size_of_other other,
      size_of_other <> 0 ->
      unsafe_push_array tail_init (Z.of_nat (length elems))
        (Z.of_nat (sizeof E)) (encode_each elems ++ rest)
        size_of_other (Some other) q
      = Some {| data_ := data_ q
                         ++ [{| content := elems; fields := fields other |}];
                id_ := id_ q |}).
Proof.
  intros Hn Hbytes. split.
  - intros other. unfold unsafe_push_array. cbn [Z.eqb].
    destruct further; cbn [mbind option_bind]; [reflexivity|].
    apply (push_array_pushed tail_init elems rest (array_message_init tail_init));
      assumption.
  - intros size_of_other other Hne. unfold unsafe_push_array.
    apply Z.eqb_neq in Hne. rewrite Hne. cbn [mbind option_bind].
    apply (push_array_pushed tail_init); assumption.
Qed.

(** X30.  For every byte count [n] from 1 to [INT_MAX] that is a multiple
    of the message size, [get_buffer_(n)] resizes the local delivery buffer
    to exactly [n / sizeof(message_type)] slots (messages already there
    stay, new slots are value-initialized), [n] bytes in all, and returns
    the pointer to slot 0 of that storage, behind which every one of the
    slots lies. *)
Theorem get_buffer_spec {M} `{MessageType M} (n : Z) (q : impl M) :
  0 < n <= INT_MAX -> (sizeof_message M | n) ->
  exists q',
    get_buffer_ n q = Some (0%nat, q') /\
    data_ q' = resize (Z.to_nat (n / sizeof_message M)) message_init (data_ q) /\
    size q' = n / sizeof_message M /\
    size q' * sizeof_message M = n /\
    (forall k : nat, Z.of_nat k < n / sizeof_message M ->
                     is_Some (data_ q' !! (0 + k)%nat)).
Proof.
  intros Hn [k Hk].
  pose proof size_t_modulus_ptrdiff as Hp. pose proof ptrdiff_max_ge as Hge.
  pose proof (sizeof_message_pos (M := M)) as Hs.
  assert (Hdiv : n / sizeof_message M = k)
    by (subst n; apply Z.div_mul; lia).
  assert (Hk0 : 0 < k) by nia.
  eexists. unfold get_buffer_.
  rewrite (to_size_t_small n) by lia.
  replace (max_messages <? n / sizeof_message M) with false.
  2:{ symmetry. apply Z.ltb_ge. unfold max_messages.
      apply Z.div_le_mono; lia. }
  replace (n / sizeof_message M =? 0) with false
    by (symmetry; apply Z.eqb_neq; lia).
  split; [reflexivity|]. cbn [data_]. split; [reflexivity|].
  unfold size; cbn [data_]. rewrite length_resize, Hdiv, Z2Nat.id by lia.
  repeat split; [lia|].
  intros j Hj. apply lookup_lt_is_Some. rewrite length_resize. lia.
Qed.

(** C7.  In every state of a queue, after [clear_()] the local delivery
    buffer holds no message: [size()] is 0 and [empty()] is true. *)
Theorem clear_empties {M} (q : impl M) :
  data_ (clear_ q) = [] /\ size (clear_ q) = 0 /\ empty (clear_ q) = true.
Proof. repeat split. Qed.

(** C8.  In every state of a queue and for every message [m],
    [unsafe_push_back(&m)] appends one message equal to [m] at the end of
    the local delivery buffer, [size()] grows by one, and the messages
    before the new one are the buffer as it was: every message that was in
    the buffer is still there, unchanged, at its position. *)
Theorem unsafe_push_back_appends {M} (m : M) (q : impl M) :
  data_ (unsafe_push_back m q) = data_ q ++ [m] /\
  size (unsafe_push_back m q) = size q + 1 /\
  data_ (unsafe_push_back m q) !! length (data_ q) = Some m /\
  take (length (data_ q)) (data_ (unsafe_push_back m q)) = data_ q /\
  id_ (unsafe_push_back m q) = id_ q.
Proof.
  unfold unsafe_push_back, size; cbn [data_ id_]. repeat split.
  - rewrite length_app. cbn [length]. lia.
  - rewrite lookup_app_r by lia. rewrite Nat.sub_diag. reflexivity.
  - apply take_app_length.
Qed.

End QueueFacts.

(** The message type of a queue of [int]: four bytes, zero when
    value-initialized. *)
Lemma zero_lt_4 : 0 < 4.
Proof. lia. Qed.

Definition int_message : MessageType int :=
  {| sizeof_message := 4; sizeof_message_pos := zero_lt_4;
     message_init := int_cast 0 |}.

(** A queue of [int[]] with one further [int]. *)
Definition with_tag : Further Z := true.

(** C5 as stated fails for a queue with a further field when no trailing
    fields are supplied: the message pushed is a tuple, the code resizes
    and fills it as if it were the vector, and no message with the three
    elements is appended. *)
Lemma push_array_without_other :
  @unsafe_push_array host64 int _ Z with_tag 0 3 4
     (encode_each [int_cast 10; int_cast 20; int_cast 30]) 0 None
     {| data_ := []; id_ := 0 |}
  = None.
Proof. reflexivity. Qed.

Lemma unsafe_push_array_spec_witness :
  @unsafe_push_array host64 int _ unit no_further tt 3 4
     (encode_each [int_cast 10; int_cast 20; int_cast 30]) 0 None
     {| data_ := []; id_ := 0 |}
  = Some {| data_ := [{| content := [int_cast 10; int_cast 20; int_cast 30];
                         fields := tt |}];
            id_ := 0 |} /\
  @unsafe_push_array host64 int _ Z with_tag 0 3 4
     (encode_each [int_cast 10; int_cast 20; int_cast 30]) 16
     (Some {| content := []; fields := 5 |})
     {| data_ := []; id_ := 0 |}
  = Some {| data_ := [{| content := [int_cast 10; int_cast 20; int_cast 30];
                         fields := 5 |}];
            id_ := 0 |}.
Proof.
  split.
  - destruct (@unsafe_push_array_spec host64 int _ unit no_further tt
                [int_cast 10; int_cast 20; int_cast 30] []
                {| data_ := []; id_ := 0 |}) as [A _].
    + simpl. unfold INT_MAX. lia.
    + discriminate.
    + exact (A None).
  - destruct (@unsafe_push_array_spec host64 int _ Z with_tag 0
                [int_cast 10; int_cast 20; int_cast 30] []
                {| data_ := []; id_ := 0 |}) as [_ B].
    + simpl. unfold INT_MAX. lia.
    + discriminate.
    + exact (B 16 {| content := []; fields := 5 |} ltac:(discriminate)).
Defined.

(** C6 fails at [n = 0], when nothing comes in: the vector is resized to
    no slots and [data_[0]] is evaluated on it, whatever the queue held. *)
Theorem get_buffer_of_nothing :
  forall q : impl int, @get_buffer_ host64 int int_message 0 q = None.
Proof. intros q. reflexivity. Qed.

Lemma get_buffer_spec_witness :
  exists q',
    @get_buffer_ host64 int int_message 12 {| data_ := [int_cast 1]; id_ := 0 |}
    = Some (0%nat, q') /\
    data_ q' = resize 3 (int_cast 0) [int_cast 1] /\
    size q' = 3 /\
    size q' * 4 = 12 /\
    (forall k : nat, Z.of_nat k < 3 -> is_Some (data_ q' !! (0 + k)%nat)).
Proof.
  apply (@get_buffer_spec host64 int int_message 12
           {| data_ := [int_cast 1]; id_ := 0 |}).
  - unfold INT_MAX. lia.
  - exists 3. reflexivity.
Defined.

End Queue.

(** ** Epiphany streams: [bulk::epiphany::stream::write] *)

Module Stream.
Import Machine.

(** A transfer handed to a DMA engine by [dma_task::push(dst, src, nbytes,
    engine)]. *)
Record dma_transfer := {
  dma_dst : Z;
  dma_src : Z;
  dma_nbytes : Z;
  dma_engine : Z
}.

(** [class stream] on an Epiphany core, where pointers, [unsigned] and
    [size_t] have 32 bits.  Of the [dma_task] the model keeps whether it is
    busy (the enable bit of its configuration, which the interrupt handler
    clears) and the transfers it handed to the engines, oldest first. *)
Record stream := {
  buffer : Z;
  capacity : Z;
  offset : Z;
  size : Z;
  stream_id : Z;
  cursor : Z;
  dma_busy : bool;
  dma_pushed : list dma_transfer
}.

(** [void wait()]: returns when the pending transfer, if any, is done. *)
Definition wait (s : stream) : stream :=
  {| buffer := buffer s; capacity := capacity s; offset := offset s;
     size := size s; stream_id := stream_id s; cursor := cursor s;
     dma_busy := false; dma_pushed := dma_pushed s |}.

(** [dma.push(dst, src, nbytes, engine)] *)
Definition dma_push (dst src nbytes engine : Z) (s : stream) : stream :=
  {| buffer := buffer s; capacity := capacity s; offset := offset s;
     size := size s; stream_id := stream_id s; cursor := cursor s;
     dma_busy := true;
     dma_pushed := dma_pushed s
                   ++ [{| dma_dst := dst; dma_src := src;
                          dma_nbytes := nbytes; dma_engine := engine |}] |}.

Definition set_cursor (c : Z) (s : stream) : stream :=
  {| buffer := buffer s; capacity := capacity s; offset := offset s;
     size := size s; stream_id := stream_id s; cursor := c;
     dma_busy := dma_busy s; dma_pushed := dma_pushed s |}.

(** [int write(void* data, size_t size, bool wait_for_completion)]: the
    value returned and the stream after the call. *)
Definition write (data size : Z) (wait_for_completion : bool) (s : stream) : Z * stream :=
  let remaining := to_unsigned (to_unsigned (buffer s + capacity s) - cursor s) in
  if remaining <? size then (-1, s)
  else
    let s1 := wait s in
    let size := to_unsigned
                  (to_unsigned (to_unsigned (to_unsigned (size + 8) - 1) / 8) * 8) in
    let s2 := dma_push (cursor s1) data size 1 s1 in
    let s3 := set_cursor (to_unsigned (cursor s2 + size)) s2 in
    let s4 := if wait_for_completion then wait s3 else s3 in
    (to_int size, s4).

(** The bytes between the cursor and the end of the buffer. *)
Definition remaining (s : stream) : Z := buffer s + capacity s - cursor s.

(** The next multiple of 8 that is not below [n]. *)
Definition round_up8 (n : Z) : Z := (n + 7) / 8 * 8.

(** The cursor is in the buffer or at its end, and the capacity is one
    that [provider::create_stream] allocates on the host: an [int], rounded
    up to a multiple of 8. *)
Definition stream_ok (s : stream) : Prop :=
  buffer s <= cursor s <= buffer s + capacity s /\
  capacity s <= INT_MAX - 7.

(** What [write] does on the streams the host sets up.  For every stream
    whose cursor is in its buffer or at
    its end and whose capacity is at most [INT_MAX - 7], and every
    requested size that exceeds the bytes remaining between the cursor and
    the end of the buffer, [write] returns -1 and leaves the stream as it
    was, no transfer pushed and the cursor where it was; for every size
    that fits, [write] returns the size rounded up to a multiple of 8,
    advances the cursor by that amount (in 32-bit address arithmetic) and
    pushes one transfer of that many bytes from [data] to the old cursor on
    engine 1. *)
Theorem write_spec (s : stream) (data size : Z) (wait_for_completion : bool) :
  stream_ok s -> 0 <= size < 2 ^ 32 ->
  (remaining s < size -> write data size wait_for_completion s = (-1, s)) /\
  (size <= remaining s ->
   write data size wait_for_completion s
   = (round_up8 size,
      {| buffer := buffer s; capacity := capacity s; offset := offset s;
         size := Stream.size s; stream_id := stream_id s;
         cursor := to_unsigned (cursor s + round_up8 size);
         dma_busy := negb wait_for_completion;
         dma_pushed := dma_pushed s
                       ++ [{| dma_dst := cursor s; dma_src := data;
                              dma_nbytes := round_up8 size;
                              dma_engine := 1 |}] |})).
Proof.
  intros (Hc & Hcap) Hsize. unfold INT_MAX in Hcap.
  assert (Hrem : to_unsigned (to_unsigned (buffer s + capacity s) - cursor s)
                 = remaining s).
  { unfold to_unsigned, remaining.
    rewrite Zminus_mod_idemp_l. apply Z.mod_small. lia. }
  unfold write. rewrite Hrem. split; intros Hfit.
  - apply Z.ltb_lt in Hfit. rewrite Hfit. reflexivity.
  - assert (Hr : remaining s <= capacity s) by (unfold remaining; lia).
    apply Z.ltb_ge in Hfit as Hfit'. rewrite Hfit'.
    assert (Hround : size <= round_up8 size <= size + 7).
    { unfold round_up8. Z.div_mod_to_equations. lia. }
    assert (Hsz : to_unsigned
                    (to_unsigned (to_unsigned (to_unsigned (size + 8) - 1) / 8) * 8)
                  = round_up8 size).
    { unfold to_unsigned at 3 4. rewrite Zminus_mod_idemp_l.
      replace (size + 8 - 1) with (size + 7) by lia.
      rewrite (Z.mod_small (size + 7)) by lia.
      unfold to_unsigned at 2.
      assert (0 <= (size + 7) / 8 <= size + 7)
        by (Z.div_mod_to_equations; lia).
      rewrite (Z.mod_small ((size + 7) / 8)) by lia.
      unfold to_unsigned, round_up8 in *. apply Z.mod_small. lia. }
    cbv zeta. rewrite Hsz.
    rewrite to_int_small by (unfold INT_MIN, INT_MAX; lia).
    f_equal.
    destruct wait_for_completion; unfold wait, set_cursor, dma_push;
      cbn [buffer capacity offset Stream.size stream_id cursor dma_busy
           dma_pushed negb]; reflexivity.
Qed.

(** The stream of the examples: a buffer of 16 bytes in external memory,
    the cursor 13 bytes into it. *)
Definition stream_at_13 : stream :=
  {| buffer := 2382364672; capacity := 16; offset := 0; size := 16;
     stream_id := 0; cursor := 2382364685; dma_busy := false;
     dma_pushed := [] |}.

Lemma stream_at_13_ok : stream_ok stream_at_13.
Proof. unfold stream_ok, stream_at_13, INT_MAX; cbn [buffer capacity cursor]. lia. Qed.

(** The stream [stream_at_13] after a write of 3 bytes: the cursor is 21
    bytes into the buffer of 16. *)
Definition stream_at_21 : stream :=
  {| buffer := 2382364672; capacity := 16; offset := 0; size := 16;
     stream_id := 0; cursor := 2382364693; dma_busy := false;
     dma_pushed := [{| dma_dst := 2382364685; dma_src := 4096;
                       dma_nbytes := 8; dma_engine := 1 |}] |}.

(** C9.  The size is checked against the bytes remaining before it is
    rounded up to a multiple of 8, not after: with 3 bytes remaining a
    write of 3 bytes is accepted and transfers 8 bytes to the cursor, 5 of
    them behind the end of the buffer, and leaves the cursor behind the
    end.  On that stream nothing remains, yet the next write of 8 bytes
    is accepted too: it returns 8, not -1, and pushes a second transfer
    behind the buffer. *)
Theorem write_overruns_the_buffer :
  write 4096 3 true stream_at_13 = (8, stream_at_21) /\
  buffer stream_at_13 + capacity stream_at_13 < cursor stream_at_13 + 8 /\
  buffer stream_at_21 + capacity stream_at_21 < cursor stream_at_21 /\
  fst (write 4096 8 true stream_at_21) = 8 /\
  length (dma_pushed (snd (write 4096 8 true stream_at_21))) = 2%nat.
Proof. repeat split; vm_compute; reflexivity. Qed.

(** A [write] can leave the cursor past the end of the
    buffer: with 3 bytes remaining a write of
    3 bytes fits, is rounded up to 8 and moves the cursor 5 bytes past the
    end; the next write of 8 bytes exceeds what remains, yet it returns 8,
    not -1, and pushes a second transfer.  The value returned is an [int]:
    with [2 ^ 31 + 8] bytes remaining a write of [2 ^ 31] bytes fits and
    returns [- 2 ^ 31]. *)
Lemma write_past_the_end :
  write 4096 3 true stream_at_13 = (8, stream_at_21) /\
  remaining stream_at_21 < 8 /\
  write 4096 8 true stream_at_21
  = (8, {| buffer := 2382364672; capacity := 16; offset := 0; size := 16;
           stream_id := 0; cursor := 2382364701; dma_busy := false;
           dma_pushed := [{| dma_dst := 2382364685; dma_src := 4096;
                             dma_nbytes := 8; dma_engine := 1 |};
                          {| dma_dst := 2382364693; dma_src := 4096;
                             dma_nbytes := 8; dma_engine := 1 |}] |}) /\
  2147483648 <= remaining
                  {| buffer := 268435456; capacity := 2147483656; offset := 0;
                     size := 0; stream_id := 0; cursor := 268435456;
                     dma_busy := false; dma_pushed := [] |} /\
  fst (write 4096 2147483648 true
         {| buffer := 268435456; capacity := 2147483656; offset := 0;
            size := 0; stream_id := 0; cursor := 268435456;
            dma_busy := false; dma_pushed := [] |}) = -2147483648.
Proof. repeat split; discriminate. Qed.

Lemma write_spec_witness :
  write 4096 4 true stream_at_13 = (-1, stream_at_13) /\
  write 4096 2 false stream_at_13
  = (8, {| buffer := 2382364672; capacity := 16; offset := 0; size := 16;
           stream_id := 0; cursor := 2382364693; dma_busy := true;
           dma_pushed := [{| dma_dst := 2382364685; dma_src := 4096;
                             dma_nbytes := 8; dma_engine := 1 |}] |}).
Proof.
  split.
  - apply (write_spec stream_at_13 4096 4 true stream_at_13_ok); [lia|].
    unfold remaining, stream_at_13; cbn [buffer capacity cursor]. lia.
  - apply (write_spec stream_at_13 4096 2 false stream_at_13_ok); [lia|].
    unfold remaining, stream_at_13; cbn [buffer capacity cursor]. lia.
Defined.

End Stream.

(** ** Cyclic partitionings: [bulk::cyclic_partitioning<D, G>] *)

Module Cyclic.
Import Machine.

(** Arithmetic on [int]: a result outside the range of [int] and a
    division by zero are undefined. *)
Definition int_checked (z : Z) : option Z :=
  if in_int_range z then Some z else None.

Definition int_add (a b : Z) : option Z := int_checked (a + b).
Definition int_sub (a b : Z) : option Z := int_checked (a - b).

Definition int_div (a b : Z) : option Z :=
  if b =? 0 then None else int_checked (a ÷ b).

Definition int_rem (a b : Z) : option Z :=
  if b =? 0 then None
  else if (a =? INT_MIN) && (b =? -1) then None
  else Some (Z.rem a b).

(** [index_type<N>], declared in [partitioning.hpp]: as the code uses it,
    an array of [N] [int]s. *)
Abbreviation index_type := (list Z).

(** The assignment [a[d] = v], undefined outside the array. *)
Definition store (d : nat) (v : Z) (a : index_type) : option index_type :=
  if decide (d < length a)%nat then Some (<[d := v]> a) else None.

(** The loop [for (int d = lo; d < hi; ++d)] over a state. *)
Fixpoint for_loop {S} (n d : nat) (body : nat -> S -> option S) (s : S) : option S :=
  match n with
  | O => Some s
  | Datatypes.S n' => s' ← body d s; for_loop n' (Datatypes.S d) body s'
  end.

Definition for_range {S} (lo hi : nat) (body : nat -> S -> option S) (s : S) : option S :=
  for_loop (hi - lo) lo body s.

(** The template arguments and the members [global_size_] and
    [grid_size_] that the class inherits from [multi_partitioning<D, G>]. *)
Record cyclic_partitioning := {
  D : nat;
  G : nat;
  global_size_ : index_type;
  grid_size_ : index_type
}.

(** What the types and the [static_assert] of the constructor give. *)
Definition partitioning_ok (p : cyclic_partitioning) : Prop :=
  (G p <= D p)%nat /\
  length (global_size_ p) = D p /\
  length (grid_size_ p) = G p.

(** [index_type<D> global_to_local(index_type<D> index)] *)
Definition global_to_local (p : cyclic_partitioning) (index : index_type) : option index_type :=
  for_range 0 (G p)
    (fun d index =>
       x ← index !! d;
       g ← grid_size_ p !! d;
       q ← int_div x g;
       store d q index)
    index.

(** [index_type<D> local_size(index_type<G> idxs)].  The local array
    [size] starts out indeterminate; the two loops assign every entry of
    it. *)
Definition local_size (p : cyclic_partitioning) (idxs : index_type) : option index_type :=
  size ← for_range 0 (G p)
            (fun dim size =>
               n ← global_size_ p !! dim;
               g ← grid_size_ p !! dim;
               i ← idxs !! dim;
               a ← int_add n g;
               b ← int_sub a i;
               c ← int_sub b 1;
               q ← int_div c g;
               store dim q size)
            (replicate (D p) 0);
  for_range (G p) (D p)
    (fun dim size =>
       n ← global_size_ p !! dim;
       store dim n size)
    size.

(** [index_type<G> grid_owner(index_type<D> xs)] *)
Definition grid_owner (p : cyclic_partitioning) (xs : index_type) : option index_type :=
  for_range 0 (G p)
    (fun d result =>
       x ← xs !! d;
       g ← grid_size_ p !! d;
       r ← int_rem x g;
       store d r result)
    (replicate (G p) 0).

Lemma for_loop_inv {S} (Inv : nat -> S -> Prop) (body : nat -> S -> option S) n :
  forall d s,
    Inv d s ->
    (forall k s0, (d <= k < d + n)%nat -> Inv k s0 ->
                  exists s1, body k s0 = Some s1 /\ Inv (Datatypes.S k) s1) ->
    exists s', for_loop n d body s = Some s' /\ Inv (d + n)%nat s'.
Proof.
  induction n as [|n IH]; intros d s Hs Hbody.
  - exists s. rewrite Nat.add_0_r. split; [reflexivity | exact Hs].
  - destruct (Hbody d s ltac:(lia) Hs) as (s1 & Hb & Hs1).
    destruct (IH (Datatypes.S d) s1 Hs1) as (s' & Hl & Hs').
    { intros k s0 Hk. apply Hbody. lia. }
    exists s'. cbn [for_loop]. rewrite Hb. cbn [mbind option_bind].
    split; [exact Hl|]. replace (d + Datatypes.S n)%nat with (Datatypes.S d + n)%nat by lia.
    exact Hs'.
Qed.

Lemma for_range_inv {S} (Inv : nat -> S -> Prop) (body : nat -> S -> option S) lo hi s :
  (lo <= hi)%nat ->
  Inv lo s ->
  (forall k s0, (lo <= k < hi)%nat -> Inv k s0 ->
                exists s1, body k s0 = Some s1 /\ Inv (Datatypes.S k) s1) ->
  exists s', for_range lo hi body s = Some s' /\ Inv hi s'.
Proof.
  intros Hle Hs Hbody. unfold for_range.
  destruct (for_loop_inv Inv body (hi - lo) lo s Hs) as (s' & Hl & Hs').
  { intros k s0 Hk. apply Hbody. lia. }
  exists s'. split; [exact Hl|].
  replace hi with (lo + (hi - lo))%nat at 1 by lia. exact Hs'.
Qed.

Lemma int_checked_in z : INT_MIN <= z <= INT_MAX -> int_checked z = Some z.
Proof.
  intros Hz. unfold int_checked, in_int_range.
  replace (INT_MIN <=? z) with true by (symmetry; apply Z.leb_le; lia).
  replace (z <=? INT_MAX) with true by (symmetry; apply Z.leb_le; lia).
  reflexivity.
Qed.

Lemma store_in d v a :
  (d < length a)%nat -> store d v a = Some (<[d := v]> a).
Proof. intros Hd. unfold store. rewrite decide_True by exact Hd. reflexivity. Qed.

Lemma quot_rem_nonneg x g :
  0 <= x -> 0 < g -> x ÷ g = x / g /\ Z.rem x g = x mod g.
Proof.
  intros Hx Hg. split.
  - apply Z.quot_div_nonneg; lia.
  - apply Z.rem_mod_nonneg; lia.
Qed.

Section Consistency.
Variable p : cyclic_partitioning.
Variable xs : index_type.
Hypothesis Hok : partitioning_ok p.
Hypothesis Hxs : length xs = D p.
Hypothesis Hgrid : forall d g, grid_size_ p !! d = Some g -> 0 < g.
Hypothesis Hfit :
  forall d n g,
    global_size_ p !! d = Some n -> grid_size_ p !! d = Some g ->
    n + g <= INT_MAX.
Hypothesis Hin :
  forall d x n,
    xs !! d = Some x -> global_size_ p !! d = Some n -> 0 <= x < n.

(** In each of the first [G] dimensions there are a global index, a
    global size and a grid size. *)
Lemma dimension_entries k :
  (k < G p)%nat ->
  exists x n g,
    xs !! k = Some x /\ global_size_ p !! k = Some n /\
    grid_size_ p !! k = Some g /\ 0 <= x < n /\ 0 < g /\ n + g <= INT_MAX.
Proof.
  intros Hk. destruct Hok as (HGD & Hgl & Hgr).
  destruct (lookup_lt_is_Some_2 xs k ltac:(lia)) as [x Hx].
  destruct (lookup_lt_is_Some_2 (global_size_ p) k ltac:(lia)) as [n Hn].
  destruct (lookup_lt_is_Some_2 (grid_size_ p) k ltac:(lia)) as [g Hg].
  exists x, n, g. eauto 10.
Qed.

Lemma grid_owner_result :
  exists owner,
    grid_owner p xs = Some owner /\ length owner = G p /\
    forall d x g,
      xs !! d = Some x -> grid_size_ p !! d = Some g ->
      owner !! d = Some (Z.rem x g).
Proof.
  destruct (for_range_inv
              (fun k (r : index_type) =>
                 length r = G p /\
                 forall d x g, (d < k)%nat ->
                   xs !! d = Some x -> grid_size_ p !! d = Some g ->
                   r !! d = Some (Z.rem x g))
              (fun d result =>
                 x ← xs !! d; g ← grid_size_ p !! d; r ← int_rem x g;
                 store d r result)
              0 (G p) (replicate (G p) 0)) as (owner & Hrun & Hlen & Hval).
  - lia.
  - split; [apply length_replicate | intros; lia].
  - intros k r Hk [Hlen Hval].
    destruct (dimension_entries k ltac:(lia)) as (x & n & g & Hx & Hn & Hg & Hxn & Hg0 & _).
    rewrite Hx, Hg. cbn [mbind option_bind]. unfold int_rem.
    replace (g =? 0) with false by (symmetry; apply Z.eqb_neq; lia).
    replace (g =? -1) with false by (symmetry; apply Z.eqb_neq; lia).
    rewrite andb_false_r. cbn [mbind option_bind].
    rewrite store_in by lia. eexists. split; [reflexivity|].
    split; [rewrite length_insert; exact Hlen|].
    intros d x' g' Hd Hx' Hg'. destruct (decide (d = k)) as [->|Hne].
    + rewrite list_lookup_insert_eq by lia. congruence.
    + rewrite list_lookup_insert_ne by congruence. apply Hval; [lia|assumption..].
  - exists owner. split; [exact Hrun|]. split; [exact Hlen|].
    intros d x g Hx Hg. apply Hval; [|assumption..].
    apply lookup_lt_Some in Hg. destruct Hok as (_ & _ & Hgr). lia.
Qed.

Lemma global_to_local_result :
  exists loc,
    global_to_local p xs = Some loc /\ length loc = D p /\
    (forall d x g,
        xs !! d = Some x -> grid_size_ p !! d = Some g ->
        loc !! d = Some (x ÷ g)) /\
    (forall d, (G p <= d)%nat -> loc !! d = xs !! d).
Proof.
  destruct (for_range_inv
              (fun k (a : index_type) =>
                 length a = D p /\
                 (forall d x g, (d < k)%nat ->
                    xs !! d = Some x -> grid_size_ p !! d = Some g ->
                    a !! d = Some (x ÷ g)) /\
                 (forall d, (k <= d)%nat -> a !! d = xs !! d))
              (fun d index =>
                 x ← index !! d; g ← grid_size_ p !! d; q ← int_div x g;
                 store d q index)
              0 (G p) xs) as (loc & Hrun & Hlen & Hlow & Hhigh).
  - lia.
  - split; [exact Hxs|]. split; [intros; lia | reflexivity].
  - intros k a Hk (Hlen & Hlow & Hhigh).
    destruct (dimension_entries k ltac:(lia))
      as (x & n & g & Hx & Hn & Hg & Hxn & Hg0 & Hng).
    rewrite Hhigh, Hx, Hg by lia. cbn [mbind option_bind]. unfold int_div.
    replace (g =? 0) with false by (symmetry; apply Z.eqb_neq; lia).
    destruct (quot_rem_nonneg x g ltac:(lia) Hg0) as [Hq _].
    rewrite int_checked_in.
    2:{ rewrite Hq. unfold INT_MIN.
        assert (0 <= x / g <= x) by (Z.div_mod_to_equations; nia). lia. }
    cbn [mbind option_bind]. destruct Hok as (HGD & _ & _).
    rewrite store_in by lia. eexists. split; [reflexivity|].
    split; [rewrite length_insert; exact Hlen|]. split.
    + intros d x' g' Hd Hx' Hg'. destruct (decide (d = k)) as [->|Hne].
      * rewrite list_lookup_insert_eq by lia. congruence.
      * rewrite list_lookup_insert_ne by congruence.
        apply Hlow; [lia|assumption..].
    + intros d Hd. rewrite list_lookup_insert_ne by lia. apply Hhigh. lia.
  - exists loc. split; [exact Hrun|]. split; [exact Hlen|]. split; [|exact Hhigh].
    intros d x g Hx Hg. apply Hlow; [|assumption..].
    apply lookup_lt_Some in Hg. destruct Hok as (_ & _ & Hgr). lia.
Qed.

Lemma local_size_result (owner : index_type) :
  length owner = G p ->
  (forall d x g,
      xs !! d = Some x -> grid_size_ p !! d = Some g ->
      owner !! d = Some (Z.rem x g)) ->
  exists sz,
    local_size p owner = Some sz /\ length sz = D p /\
    (forall d x n g,
        xs !! d = Some x -> global_size_ p !! d = Some n ->
        grid_size_ p !! d = Some g ->
        sz !! d = Some ((n + g - Z.rem x g - 1) ÷ g)) /\
    (forall d, (G p <= d)%nat -> sz !! d = global_size_ p !! d).
Proof.
  intros Hlo Hown. pose proof Hok as (HGD & Hgl & Hgr).
  destruct (for_range_inv
              (fun k (a : index_type) =>
                 length a = D p /\
                 forall d x n g, (d < k)%nat ->
                   xs !! d = Some x -> global_size_ p !! d = Some n ->
                   grid_size_ p !! d = Some g ->
                   a !! d = Some ((n + g - Z.rem x g - 1) ÷ g))
              (fun dim size =>
                 n ← global_size_ p !! dim; g ← grid_size_ p !! dim;
                 i ← owner !! dim; a ← int_add n g; b ← int_sub a i;
                 c ← int_sub b 1; q ← int_div c g; store dim q size)
              0 (G p) (replicate (D p) 0)) as (sz1 & Hrun1 & Hlen1 & Hval1).
  { lia. }
  { split; [apply length_replicate | intros; lia]. }
  { intros k a Hk [Hlen Hval].
    destruct (dimension_entries k ltac:(lia))
      as (x & n & g & Hx & Hn & Hg & Hxn & Hg0 & Hng).
    rewrite Hn, Hg, (Hown k x g Hx Hg). cbn [mbind option_bind].
    destruct (quot_rem_nonneg x g ltac:(lia) Hg0) as [_ Hr].
    pose proof (Z.mod_pos_bound x g Hg0) as Hm.
    destruct (quot_rem_nonneg (n + g - Z.rem x g - 1) g ltac:(lia) Hg0)
      as [Hq _].
    unfold int_add, int_sub, int_div, INT_MAX, INT_MIN in *.
    rewrite (int_checked_in (n + g)) by (unfold INT_MAX, INT_MIN; lia).
    cbn [mbind option_bind].
    rewrite (int_checked_in (n + g - _)) by (unfold INT_MAX, INT_MIN; lia).
    cbn [mbind option_bind].
    rewrite (int_checked_in (n + g - _ - 1)) by (unfold INT_MAX, INT_MIN; lia).
    cbn [mbind option_bind].
    replace (g =? 0) with false by (symmetry; apply Z.eqb_neq; lia).
    rewrite int_checked_in.
    2:{ rewrite Hq. unfold INT_MAX, INT_MIN. rewrite Hr.
        assert (0 <= (n + g - x mod g - 1) / g <= n + g - x mod g - 1)
          by (Z.div_mod_to_equations; nia).
        lia. }
    cbn [mbind option_bind]. rewrite store_in by lia.
    eexists. split; [reflexivity|].
    split; [rewrite length_insert; exact Hlen|].
    intros d x' n' g' Hd Hx' Hn' Hg'. destruct (decide (d = k)) as [->|Hne].
    - rewrite list_lookup_insert_eq by lia. congruence.
    - rewrite list_lookup_insert_ne by congruence.
      apply Hval; [lia|assumption..]. }
  destruct (for_range_inv
              (fun k (a : index_type) =>
                 length a = D p /\
                 (forall d, (d < G p)%nat -> a !! d = sz1 !! d) /\
                 (forall d, (G p <= d < k)%nat -> a !! d = global_size_ p !! d))
              (fun dim size => n ← global_size_ p !! dim; store dim n size)
              (G p) (D p) sz1) as (sz & Hrun2 & Hlen2 & Hlow2 & Hhigh2).
  { exact HGD. }
  { split; [exact Hlen1|]. split; [reflexivity | intros; lia]. }
  { intros k a Hk (Hlen & Hlow & Hhigh).
    destruct (lookup_lt_is_Some_2 (global_size_ p) k ltac:(lia)) as [n Hn].
    rewrite Hn. cbn [mbind option_bind]. rewrite store_in by lia.
    eexists. split; [reflexivity|].
    split; [rewrite length_insert; exact Hlen|]. split.
    - intros d Hd. rewrite list_lookup_insert_ne by lia. apply Hlow, Hd.
    - intros d Hd. destruct (decide (d = k)) as [->|Hne].
      + rewrite list_lookup_insert_eq by lia. congruence.
      + rewrite list_lookup_insert_ne by congruence. apply Hhigh. lia. }
  exists sz. unfold local_size. rewrite Hrun1. cbn [mbind option_bind].
  split; [exact Hrun2|]. split; [exact Hlen2|]. split.
  - intros d x n g Hx Hn Hg.
    assert (Hd : (d < G p)%nat) by (apply lookup_lt_Some in Hg; lia).
    rewrite Hlow2 by exact Hd. apply Hval1; assumption.
  - intros d Hd. destruct (decide (d < D p)%nat) as [Hlt|Hge].
    + apply Hhigh2. lia.
    + rewrite !lookup_ge_None_2 by lia. reflexivity.
Qed.

(** C10, as amended.  For a cyclic partitioning whose grid sizes are
    positive and
    whose sizes stay in the range of [int], and every global index [xs]
    with [0 <= xs[d] < global_size[d]] in each dimension [d]: the three
    maps are defined, [grid_owner(xs)[d]] lies in [[0, grid_size[d])] in
    each of the first [G] dimensions, and [global_to_local(xs)[d]] is
    below [local_size(grid_owner(xs))[d]] in every dimension. *)
Theorem cyclic_maps_consistent :
  exists owner loc sz,
    grid_owner p xs = Some owner /\
    global_to_local p xs = Some loc /\
    local_size p owner = Some sz /\
    (forall d, (d < G p)%nat ->
       exists o g, owner !! d = Some o /\ grid_size_ p !! d = Some g /\
                   0 <= o < g) /\
    (forall d, (d < D p)%nat ->
       exists l s, loc !! d = Some l /\ sz !! d = Some s /\ l < s).
Proof.
  destruct grid_owner_result as (owner & Hown & Hlo & Hov).
  destruct global_to_local_result as (loc & Hloc & Hll & Hlv & Hlh).
  destruct (local_size_result owner Hlo Hov) as (sz & Hsz & Hls & Hsv & Hsh).
  exists owner, loc, sz. repeat split; try assumption.
  - intros d Hd.
    destruct (dimension_entries d Hd) as (x & n & g & Hx & Hn & Hg & Hxn & Hg0 & _).
    exists (Z.rem x g), g. repeat split; auto.
    + apply Z.rem_bound_pos; lia.
    + apply Z.rem_bound_pos; lia.
  - intros d Hd. destruct (decide (d < G p)%nat) as [HdG|HdG].
    + destruct (dimension_entries d HdG)
        as (x & n & g & Hx & Hn & Hg & Hxn & Hg0 & _).
      exists (x ÷ g), ((n + g - Z.rem x g - 1) ÷ g).
      split; [apply Hlv; assumption|]. split; [apply Hsv; assumption|].
      destruct (quot_rem_nonneg x g ltac:(lia) Hg0) as [Hq Hr].
      pose proof (Z.mod_pos_bound x g Hg0) as Hm.
      destruct (quot_rem_nonneg (n + g - Z.rem x g - 1) g ltac:(lia) Hg0)
        as [Hq' _].
      rewrite Hq, Hq', Hr. Z.div_mod_to_equations. nia.
    + destruct Hok as (HGD & Hgl & Hgr).
      destruct (lookup_lt_is_Some_2 xs d ltac:(lia)) as [x Hx].
      destruct (lookup_lt_is_Some_2 (global_size_ p) d ltac:(lia)) as [n Hn].
      exists x, n. rewrite Hlh, Hsh by lia.
      repeat split; try assumption. apply (Hin d x n Hx Hn).
Qed.

End Consistency.

(** Ten by seven elements, the first seven by five of them distributed
    over a grid of four processors in the first dimension (D = 2, G = 1). *)
Definition ten_by_seven : cyclic_partitioning :=
  {| D := 2; G := 1; global_size_ := [10; 7]; grid_size_ := [4] |}.

Lemma cyclic_maps_consistent_witness :
  exists owner loc sz,
    grid_owner ten_by_seven [9; 6] = Some owner /\
    global_to_local ten_by_seven [9; 6] = Some loc /\
    local_size ten_by_seven owner = Some sz /\
    (forall d, (d < G ten_by_seven)%nat ->
       exists o g, owner !! d = Some o /\
                   grid_size_ ten_by_seven !! d = Some g /\ 0 <= o < g) /\
    (forall d, (d < D ten_by_seven)%nat ->
       exists l s, loc !! d = Some l /\ sz !! d = Some s /\ l < s).
Proof.
  apply (cyclic_maps_consistent ten_by_seven [9; 6]).
  - repeat split; cbn; lia.
  - reflexivity.
  - intros [|d] g; cbn; [intros [= <-]; lia | discriminate].
  - intros [|d] n g; cbn; [|discriminate].
    intros [= <-] [= <-]. unfold INT_MAX. lia.
  - intros [|[|d]] x n; cbn; try discriminate; intros [= <-] [= <-]; lia.
Defined.

(** One dimension of [INT_MAX] elements over a grid of two processors,
    and one of ten elements over a grid of no processor. *)
Definition int_max_by_two : cyclic_partitioning :=
  {| D := 1; G := 1; global_size_ := [INT_MAX]; grid_size_ := [2] |}.

Definition ten_by_none : cyclic_partitioning :=
  {| D := 1; G := 1; global_size_ := [10]; grid_size_ := [0] |}.

(** C10 as stated fails where the sizes leave the range of [int] and
    where a grid size is 0.  With [INT_MAX] elements on two processors the
    global index 0 has owner 0 and local index 0, but [local_size] adds
    the global size and the grid size, which overflows: there is no local
    size to be below.  With a grid size of 0, [grid_owner] and
    [global_to_local] divide by zero. *)
Lemma local_size_overflows :
  grid_owner int_max_by_two [0] = Some [0] /\
  global_to_local int_max_by_two [0] = Some [0] /\
  local_size int_max_by_two [0] = None /\
  grid_owner ten_by_none [0] = None /\
  global_to_local ten_by_none [0] = None.
Proof. repeat split; vm_compute; reflexivity. Qed.

End Cyclic.

(** ** More of the serialization layer: [omembuf], [imembuf] and sequences *)

Module SerializeOps.
Import Machine Serialize.

Section Pipes.
Context `{Platform}.
Local Open Scope buf_scope.

(** [imembuf::operator|(T& rhs)]: [membuf << rhs]. *)
Definition imembuf_pipe (rhs : value) : M unit := write_value rhs.

(** [omembuf::operator|(T& rhs)]: [membuf >> rhs], the overload chosen by
    the type of [rhs], whose old content is overwritten.  For a
    [std::vector<bool>] there is no such operation: the template for
    vectors calls [xs.data()], which that type does not have. *)
Definition omembuf_pipe (rhs : value) : M value :=
  match rhs with
  | @Fixed T HT _ => v <- read (T := T) ;; buf_ret (Fixed v)
  | Str _ => str <- read_string ;; buf_ret (Str str)
  | @Vec T HT _ => xs <- read_vector (T := T) ;; buf_ret (Vec xs)
  | VecBool _ => buf_fail
  end.

(** A sequence of values piped through an [imembuf], and through an
    [omembuf], in order. *)
Fixpoint imembuf_all (vs : list value) : M unit :=
  match vs with
  | [] => buf_ret tt
  | v :: vs' => imembuf_pipe v ;;; imembuf_all vs'
  end.

Fixpoint omembuf_all (vs : list value) : M (list value) :=
  match vs with
  | [] => buf_ret []
  | v :: vs' =>
      v1 <- omembuf_pipe v ;; vs1 <- omembuf_all vs' ;; buf_ret (v1 :: vs1)
  end.

End Pipes.

(** The values that come back as they were written: a string must hold
    no NUL byte, the element count of a vector must be an [int], and a
    [std::vector<bool>] cannot be read at all. *)
Definition transportable (v : value) : Prop :=
  match v with
  | Fixed _ => True
  | Str str => x00 ∉ str
  | Vec xs => Z.of_nat (length xs) <= INT_MAX
  | VecBool _ => False
  end.

Section PipeFacts.
Context `{Platform}.

Lemma imembuf_all_eq vs b :
  buffer_ok b -> imembuf_all vs b = put_bytes (flat_map encode vs) b.
Proof.
  intros Hb. rewrite <- write_all_eq by exact Hb. clear Hb.
  revert b. induction vs as [|v vs IH]; intros b; [reflexivity|].
  cbn [imembuf_all write_all]. unfold buf_bind, imembuf_pipe.
  destruct (write_value v b) as [[[] b1]|]; [apply IH | reflexivity].
Qed.

(** Bytes that are already in place: copying them in changes nothing but
    the cursor. *)
Lemma put_bytes_in_place bytes rest b :
  buffer_ok b ->
  drop (Z.to_nat (index b)) (buffer b) = bytes ++ rest ->
  put_bytes bytes b
  = Some (tt, {| buffer := buffer b;
                 index := index b + Z.of_nat (length bytes) |}).
Proof.
  intros [Hi Hm] Hd.
  assert (Hl : (length (buffer b) - Z.to_nat (index b))%nat
               = (length bytes + length rest)%nat).
  { rewrite <- length_drop, Hd, length_app. reflexivity. }
  unfold put_bytes. rewrite memcpy_to_fits by lia. do 3 f_equal.
  rewrite <- (take_drop (Z.to_nat (index b)) (buffer b)) at 3.
  f_equal. rewrite Hd. f_equal.
  rewrite <- drop_drop, Hd. apply drop_app_length.
Qed.

Lemma rewind_in_place b i :
  rewind b {| buffer := buffer b; index := i |} = b.
Proof. destruct b. reflexivity. Qed.

(** A value whose encoding lies at the cursor is read, and the cursor
    moves behind it. *)
Lemma omembuf_pipe_at v rest b :
  buffer_ok b -> transportable v ->
  drop (Z.to_nat (index b)) (buffer b) = encode v ++ rest ->
  omembuf_pipe v b
  = Some (v, {| buffer := buffer b;
                index := index b + Z.of_nat (length (encode v)) |}).
Proof.
  intros Hb Hv Hd.
  pose proof (put_bytes_in_place _ _ _ Hb Hd) as Hp.
  rewrite <- write_value_eq in Hp by exact Hb.
  destruct v as [T HT x | str | T HT xs | R HR xs]; [| | |destruct Hv];
    cbn [omembuf_pipe write_value] in *; unfold buf_bind, buf_ret.
  - apply read_write in Hp. rewrite rewind_in_place in Hp. rewrite Hp.
    reflexivity.
  - apply read_write_string in Hp; [|exact Hb|exact Hv].
    rewrite rewind_in_place in Hp. rewrite Hp. reflexivity.
  - apply read_write_vector in Hp; [|exact Hb|exact Hv].
    rewrite rewind_in_place in Hp. rewrite Hp. reflexivity.
Qed.

Lemma omembuf_all_at vs :
  forall rest b,
    buffer_ok b -> Forall transportable vs ->
    drop (Z.to_nat (index b)) (buffer b) = flat_map encode vs ++ rest ->
    omembuf_all vs b
    = Some (vs, {| buffer := buffer b;
                   index := index b
                            + Z.of_nat (length (flat_map encode vs)) |}).
Proof.
  induction vs as [|v vs IH]; intros rest b Hb Hvs Hd.
  - cbn. unfold buf_ret. destruct b as [mem i]; cbn. do 3 f_equal. lia.
  - apply Forall_cons in Hvs as [Hv Hvs].
    cbn [flat_map] in *. rewrite <- app_assoc in Hd.
    cbn [omembuf_all]. unfold buf_bind at 1.
    rewrite (omembuf_pipe_at v _ b Hb Hv Hd).
    assert (Hl : (length (buffer b) - Z.to_nat (index b))%nat
                 = (length (encode v)
                    + (length (flat_map encode vs) + length rest))%nat).
    { rewrite <- length_drop, Hd, !length_app. reflexivity. }
    destruct Hb as [Hi Hm].
    unfold buf_bind. rewrite (IH rest).
    + unfold buf_ret. cbn [buffer index]. rewrite length_app.
      do 3 f_equal. lia.
    + split; cbn [buffer index]; lia.
    + exact Hvs.
    + cbn [buffer index].
      replace (Z.to_nat (index b + Z.of_nat (length (encode v))))
        with (Z.to_nat (index b) + length (encode v))%nat by lia.
      rewrite <- drop_drop, Hd. apply drop_app_length.
Qed.

(** X1.  A sequence of fixed-width values, NUL-free strings and vectors of
    at most [INT_MAX] elements that was piped through an [imembuf] comes
    back, value for value, when the same sequence of types is piped through
    an [omembuf] from the cursor position the writer started at, and the
    reader ends where the writer ended. *)
Theorem pipe_roundtrip (vs : list value) (b b' : memory_buffer) :
  buffer_ok b -> Forall transportable vs ->
  imembuf_all vs b = Some (tt, b') ->
  omembuf_all vs (rewind b b') = Some (vs, b').
Proof.
  intros Hb Hvs Hw. rewrite imembuf_all_eq in Hw by exact Hb.
  pose proof (put_bytes_ok _ _ _ Hb Hw) as Hb'.
  apply put_bytes_Some in Hw as [Hc Hidx].
  pose proof (drop_memcpy_to _ _ _ _ Hc) as Hd.
  apply memcpy_to_Some in Hc as (_ & Hfit & _ & Hlen).
  erewrite (omembuf_all_at vs _ (rewind b b')).
  - unfold rewind; cbn [buffer index]. destruct b' as [mem' i'].
    cbn [buffer index] in *. subst i'. reflexivity.
  - destruct Hb as [Hi Hm], Hb' as [Hi' Hm'].
    split; unfold rewind; cbn [buffer index]; lia.
  - exact Hvs.
  - unfold rewind; cbn [buffer index]. exact Hd.
Qed.

(** X2.  For values other than [std::vector<bool>] the size that [scale]
    computes is exact: a fresh buffer of that many bytes takes all the
    values and is full afterwards, and in any smaller buffer the writes run
    over the end. *)
Theorem scaled_buffer_is_exact (vs : list value) :
  Forall by_value vs ->
  Z.of_nat (length (flat_map encode vs)) <= ptrdiff_max ->
  (exists b',
      write_all vs (new_buffer (Z.to_nat (size (scale_all vs {| size := 0 |}))))
      = Some (tt, b') /\
      index b' = Z.of_nat (length (buffer b'))) /\
  (forall m : nat,
      Z.of_nat m < size (scale_all vs {| size := 0 |}) ->
      write_all vs (new_buffer m) = None).
Proof.
  intros Hvs Htot. pose proof size_t_modulus_ptrdiff as Hp.
  assert (Hsz : size (scale_all vs {| size := 0 |})
                = Z.of_nat (length (flat_map encode vs))).
  { rewrite scale_all_size by (try exact Hvs; cbn [size]; lia).
    cbn [size]. apply to_size_t_small. lia. }
  rewrite Hsz, Nat2Z.id. split.
  - assert (Hb : buffer_ok (new_buffer (length (flat_map encode vs)))).
    { apply buffer_ok_new. exact Htot. }
    destruct (put_bytes_fits (flat_map encode vs) _ Hb) as [b' Hw].
    { unfold fits, new_buffer; cbn [buffer index].
      rewrite length_replicate. lia. }
    exists b'. rewrite write_all_eq by exact Hb. split; [exact Hw|].
    apply put_bytes_Some in Hw as [Hc Hidx].
    apply memcpy_to_Some in Hc as (_ & _ & _ & Hlen).
    rewrite Hidx, Hlen. unfold new_buffer; cbn [buffer index].
    rewrite length_replicate. lia.
  - intros m Hm. rewrite write_all_eq by (apply buffer_ok_new; lia).
    unfold put_bytes, memcpy_to, new_buffer; cbn [buffer index].
    rewrite length_replicate.
    replace (0 + Z.of_nat (length (flat_map encode vs)) <=? Z.of_nat m)
      with false by (symmetry; apply Z.leb_gt; lia).
    reflexivity.
Qed.

(** X3.  The serialized form of a sequence is the concatenation of the
    encodings of its values, in order, at the cursor: the writes change
    those bytes only, keep the size of the buffer and leave the cursor
    behind the last of them. *)
Theorem written_bytes (vs : list value) (b b' : memory_buffer) :
  buffer_ok b -> write_all vs b = Some (tt, b') ->
  take (length (flat_map encode vs)) (drop (Z.to_nat (index b)) (buffer b'))
  = flat_map encode vs /\
  index b' = index b + Z.of_nat (length (flat_map encode vs)) /\
  take (Z.to_nat (index b)) (buffer b') = take (Z.to_nat (index b)) (buffer b) /\
  drop (Z.to_nat (index b')) (buffer b') = drop (Z.to_nat (index b')) (buffer b) /\
  length (buffer b') = length (buffer b).
Proof.
  intros Hb Hw. rewrite write_all_eq in Hw by exact Hb.
  destruct (put_bytes_frame _ _ _ Hw) as (Hpre & Hmid & Hpost).
  apply put_bytes_Some in Hw as [Hc Hidx].
  apply memcpy_to_Some in Hc as (_ & _ & _ & Hlen).
  repeat split; assumption.
Qed.

Lemma c_str_None (mem : list byte) : c_str mem = None <-> x00 ∉ mem.
Proof.
  induction mem as [|c mem IH]; cbn [c_str].
  - split; [intros _; apply not_elem_of_nil | reflexivity].
  - destruct (Byte.eqb c x00) eqn:Ec.
    + apply Byte.byte_dec_bl in Ec. subst c. split; [discriminate|].
      intros Hn. exfalso. apply Hn. apply list_elem_of_here.
    + rewrite not_elem_of_cons. destruct (c_str mem) as [str|].
      * split; [discriminate|]. intros [_ Hn]. apply IH in Hn. discriminate.
      * split; [|reflexivity]. intros _. split; [|apply IH; reflexivity].
        intros <-. rewrite Byte.byte_dec_lb in Ec by reflexivity.
        discriminate.
Qed.

(** X4.  [>>] into a string is undefined exactly when no NUL byte lies at
    or behind the cursor: the reader then runs off the end of the
    buffer. *)
Theorem read_string_needs_nul (b : memory_buffer) :
  0 <= index b ->
  (read_string b = None <-> x00 ∉ drop (Z.to_nat (index b)) (buffer b)).
Proof.
  intros Hi. unfold read_string.
  replace (0 <=? index b) with true by (symmetry; apply Z.leb_le; exact Hi).
  rewrite <- c_str_None.
  destruct (c_str (drop (Z.to_nat (index b)) (buffer b))); split;
    congruence.
Qed.

(** X5.  A string with a NUL byte inside is written whole, terminator and
    all, but read back only up to that byte, and the reader's cursor stops
    right behind it, in the middle of what was written. *)
Theorem string_cut_at_nul (pre post : string) (b : memory_buffer) :
  buffer_ok b -> x00 ∉ pre ->
  fits ((pre ++ x00 :: post) ++ [x00]) b ->
  exists b',
    write_string (pre ++ x00 :: post) b = Some (tt, b') /\
    index b' = index b + Z.of_nat (length pre) + Z.of_nat (length post) + 2 /\
    read_string (rewind b b')
    = Some (pre, {| buffer := buffer b';
                    index := index b + Z.of_nat (length pre) + 1 |}).
Proof.
  intros Hb Hn Hf. pose proof (buffer_ok_lt _ Hb) as [Hi Hm].
  destruct (put_bytes_fits _ _ Hb Hf) as [b' Hp].
  exists b'. split.
  { change (write_string (pre ++ x00 :: post) b)
      with (write_value (Str (pre ++ x00 :: post)) b).
    rewrite write_value_eq by exact Hb. exact Hp. }
  apply put_bytes_Some in Hp as [Hc Hidx].
  pose proof (drop_memcpy_to _ _ _ _ Hc) as Hd.
  unfold fits in Hf. rewrite !length_app in Hf, Hidx.
  cbn [length] in Hf, Hidx. split; [lia|].
  unfold read_string, rewind; cbn [buffer index].
  replace (0 <=? index b) with true by (symmetry; apply Z.leb_le; lia).
  rewrite Hd, <- !app_assoc. cbn [app]. rewrite c_str_app by exact Hn.
  unfold size_add, size_mul. cbn [sizeof char_fixed].
  rewrite (to_size_t_small (Z.of_nat (length pre) + 1)) by lia.
  rewrite (to_size_t_small ((Z.of_nat (length pre) + 1) * _)) by lia.
  rewrite to_size_t_small by lia. do 3 f_equal. lia.
Qed.

End PipeFacts.

Lemma pipe_roundtrip_witness :
  @omembuf_all host64
     [Fixed (int_cast 7); Str [x61; x62]; Vec [int_cast 10; int_cast 20]]
     (rewind (new_buffer 24)
        {| buffer := [x07; x00; x00; x00; x61; x62; x00; x02; x00; x00; x00;
                      x0a; x00; x00; x00; x14; x00; x00; x00; x00; x00; x00;
                      x00; x00];
           index := 19 |})
  = Some ([Fixed (int_cast 7); Str [x61; x62]; Vec [int_cast 10; int_cast 20]],
          {| buffer := [x07; x00; x00; x00; x61; x62; x00; x02; x00; x00; x00;
                        x0a; x00; x00; x00; x14; x00; x00; x00; x00; x00; x00;
                        x00; x00];
             index := 19 |}).
Proof.
  apply (@pipe_roundtrip host64).
  - apply buffer_ok_new. discriminate.
  - repeat constructor.
    + cbn. rewrite !not_elem_of_cons. repeat split; try discriminate.
      apply not_elem_of_nil.
    + cbn. unfold INT_MAX. lia.
  - reflexivity.
Defined.

Lemma scaled_buffer_is_exact_witness :
  (exists b',
      @write_all host64 [Str [x61; x62]; Vec [x01; x02; x03]]
        (new_buffer
           (Z.to_nat (size (@scale_all host64 [Str [x61; x62]; Vec [x01; x02; x03]]
                              {| size := 0 |}))))
      = Some (tt, b') /\
      index b' = Z.of_nat (length (buffer b'))) /\
  (forall m : nat,
      Z.of_nat m < size (@scale_all host64 [Str [x61; x62]; Vec [x01; x02; x03]]
                           {| size := 0 |}) ->
      @write_all host64 [Str [x61; x62]; Vec [x01; x02; x03]] (new_buffer m)
      = None).
Proof.
  apply (@scaled_buffer_is_exact host64);
    [repeat constructor | discriminate].
Defined.

Lemma written_bytes_witness :
  take (length (flat_map encode [Str [x61; x62]; Vec [x01; x02; x03]]))
       (drop (Z.to_nat (index (new_buffer 12)))
             [x61; x62; x00; x03; x00; x00; x00; x01; x02; x03; x00; x00])
  = [x61; x62; x00; x03; x00; x00; x00; x01; x02; x03] /\
  10 = index (new_buffer 12)
       + Z.of_nat (length (flat_map encode [Str [x61; x62]; Vec [x01; x02; x03]])) /\
  take (Z.to_nat (index (new_buffer 12)))
       [x61; x62; x00; x03; x00; x00; x00; x01; x02; x03; x00; x00]
  = take (Z.to_nat (index (new_buffer 12))) (buffer (new_buffer 12)) /\
  drop (Z.to_nat 10) [x61; x62; x00; x03; x00; x00; x00; x01; x02; x03; x00; x00]
  = drop (Z.to_nat 10) (buffer (new_buffer 12)) /\
  length [x61; x62; x00; x03; x00; x00; x00; x01; x02; x03; x00; x00]
  = length (buffer (new_buffer 12)).
Proof.
  exact (@written_bytes host64 [Str [x61; x62]; Vec [x01; x02; x03]]
           (new_buffer 12)
           {| buffer := [x61; x62; x00; x03; x00; x00; x00; x01; x02; x03;
                         x00; x00];
              index := 10 |}
           (buffer_ok_new host64 12 ltac:(discriminate)) eq_refl).
Defined.

Lemma read_string_needs_nul_witness :
  @read_string host64 {| buffer := [x61; x62; x63]; index := 1 |} = None
  <-> x00 ∉ drop 1 [x61; x62; x63].
Proof.
  apply (@read_string_needs_nul host64
           {| buffer := [x61; x62; x63]; index := 1 |}).
  cbn. lia.
Defined.

Lemma string_cut_at_nul_witness :
  exists b',
    @write_string host64 ([x61] ++ x00 :: [x62; x63]) (new_buffer 8)
    = Some (tt, b') /\
    index b' = 0 + 1 + 2 + 2 /\
    @read_string host64 (rewind (new_buffer 8) b')
    = Some ([x61], {| buffer := buffer b'; index := 0 + 1 + 1 |}).
Proof.
  apply (@string_cut_at_nul host64 [x61] [x62; x63] (new_buffer 8)).
  - apply buffer_ok_new. discriminate.
  - rewrite not_elem_of_cons. split; [discriminate | apply not_elem_of_nil].
  - unfold fits; cbn. lia.
Defined.

(** X6.  A vector whose count field, the four bytes at the cursor, holds
    a negative [int] cannot be read: [resize] is asked for more elements
    than a vector can have and throws. *)
Theorem negative_count_unreadable `{Platform} {T} `{FixedWidth T}
    (b : memory_buffer) (bs : list byte) :
  memcpy_from (buffer b) (index b) 4 = Some bs ->
  int_of_bytes bs < 0 ->
  read_vector (T := T) b = None.
Proof.
  intros Hm Hneg.
  apply (read_vector_negative_count b (int_cast (int_of_bytes bs))
           {| buffer := buffer b; index := size_add (index b) 4 |}).
  - unfold read. cbn [sizeof int_fixed]. change (Z.of_nat 4) with 4.
    rewrite Hm. reflexivity.
  - unfold int_cast; cbn [int_val].
    assert (Hb : INT_MIN <= int_of_bytes bs <= INT_MAX).
    { destruct bs as [|b0 [|b1 [|b2 [|b3 [|b4 bs]]]]]; cbn [int_of_bytes];
        try (unfold INT_MIN, INT_MAX; lia).
      apply (int_val_bounds (int_cast _)). }
    rewrite to_int_small by exact Hb. exact Hneg.
Qed.

Lemma negative_count_unreadable_witness :
  @read_vector host64 byte _
     {| buffer := [xff; xff; xff; xff; x61]; index := 0 |} = None.
Proof.
  apply (@negative_count_unreadable host64 byte _
           {| buffer := [xff; xff; xff; xff; x61]; index := 0 |}
           [xff; xff; xff; xff]).
  - reflexivity.
  - vm_compute. reflexivity.
Defined.

End SerializeOps.

(** ** More of the queue: [send_many] and sequences of deliveries *)

Module QueueOps.
Import Machine Serialize Queue.

(** What [world_.send_many_(t, id, m, sizeof(element_type), count, other,
    size_of_other)] is handed: [many_data] is the memory behind [m],
    [many_other] the message behind [other], [None] for [nullptr]. *)
Record send_many_call (E Tail : Type) := {
  many_target : Z;
  many_queue : Z;
  many_data : list byte;
  many_size : Z;
  many_count : Z;
  many_other : option (array_message E Tail);
  many_size_of_other : Z
}.
Arguments many_target {E Tail} _.
Arguments many_queue {E Tail} _.
Arguments many_data {E Tail} _.
Arguments many_size {E Tail} _.
Arguments many_count {E Tail} _.
Arguments many_other {E Tail} _.
Arguments many_size_of_other {E Tail} _.

(** A world that only records the calls of [send_many_] it receives. *)
Definition record_send_many_ {E Tail} (t id : Z) (m : list byte) (size count : Z)
    (other : option (array_message E Tail)) (size_of_other : Z)
    (calls : list (send_many_call E Tail)) : list (send_many_call E Tail) :=
  calls ++ [{| many_target := t; many_queue := id; many_data := m;
               many_size := size; many_count := count; many_other := other;
               many_size_of_other := size_of_other |}].

Section SendMany.
Context {E : Type} `{FixedWidth E} {Tail : Type}.
Context {World : Type}.
Variable world_send_many_ :
  Z -> Z -> list byte -> Z -> Z -> option (array_message E Tail) -> Z ->
  World -> World.

(** [void impl::send_many_(int t, int count, element_type* m, void* other,
    size_t size_of_other)] *)
Definition send_many_ (q : impl (array_message E Tail)) (t count : Z)
    (m : list byte) (other : option (array_message E Tail))
    (size_of_other : Z) (w : World) : World :=
  world_send_many_ t (id_ q) m (Z.of_nat (sizeof E)) count other
                   size_of_other w.

(** [void sender::send_many(std::vector<element_type> msgs, Ts... args)],
    the overload for queues with further fields: the count is
    [msgs.size()] converted to [int], the other message holds an empty
    vector and the arguments. *)
Definition send_many_with `{MessageType (array_message E Tail)}
    (s : sender (array_message E Tail)) (msgs : list E) (args : Tail)
    (w : World) : World :=
  let msg := {| content := []; fields := args |} in
  send_many_ (q_ s) (t_ s) (to_int (Z.of_nat (length msgs)))
             (encode_each msgs) (Some msg)
             (sizeof_message (array_message E Tail)) w.

End SendMany.

Section SendManyPlain.
Context {E : Type} `{FixedWidth E}.
Context {World : Type}.
Variable world_send_many_ :
  Z -> Z -> list byte -> Z -> Z -> option (array_message E unit) -> Z ->
  World -> World.

(** [void sender::send_many(std::vector<element_type> msgs)], the overload
    for queues whose only content is the array. *)
Definition send_many (s : sender (array_message E unit)) (msgs : list E)
    (w : World) : World :=
  send_many_ world_send_many_ (q_ s) (t_ s)
             (to_int (Z.of_nat (length msgs))) (encode_each msgs) None 0 w.

End SendManyPlain.

(** One [unsafe_push_back] per message, in order. *)
Definition push_all {M} (msgs : list M) (q : impl M) : impl M :=
  fold_left (fun q' m => unsafe_push_back m q') msgs q.

(** The delivery of a recorded [send_many_] call to a queue. *)
Definition push_call `{Platform} {E} `{FixedWidth E} {Tail} `{Further Tail}
    (tail_init : Tail)
    (c : send_many_call E Tail) (q : impl (array_message E Tail))
    : option (impl (array_message E Tail)) :=
  unsafe_push_array tail_init (many_count c) (many_size c) (many_data c)
                    (many_size_of_other c) (many_other c) q.

Section QueueOpsFacts.
Context `{Platform}.

Lemma push_all_data {M} (msgs : list M) (q : impl M) :
  data_ (push_all msgs q) = data_ q ++ msgs /\ id_ (push_all msgs q) = id_ q.
Proof.
  unfold push_all. revert q. induction msgs as [|m msgs IH]; intros q.
  - cbn. rewrite app_nil_r. split; reflexivity.
  - cbn [fold_left]. destruct (IH (unsafe_push_back m q)) as [Hd Hi].
    rewrite Hd, Hi. unfold unsafe_push_back; cbn [data_ id_].
    rewrite <- app_assoc. split; reflexivity.
Qed.

(** X7.  After [clear_()] and one [unsafe_push_back] per message, the
    local delivery buffer holds exactly those messages, in the order they
    were pushed; [size()] is their number and [empty()] holds only when
    there were none. *)
Theorem clear_then_push_all {M} (msgs : list M) (q : impl M) :
  data_ (push_all msgs (clear_ q)) = msgs /\
  size (push_all msgs (clear_ q)) = Z.of_nat (length msgs) /\
  (empty (push_all msgs (clear_ q)) = true <-> msgs = []).
Proof.
  destruct (push_all_data msgs (clear_ q)) as [Hd _].
  cbn [clear_ data_ app] in Hd. unfold size, empty. rewrite Hd.
  repeat split; destruct msgs; congruence.
Qed.

(** X8.  What [send_many] with further fields hands to the world is what
    [unsafe_push_array] needs: delivering the recorded call appends one
    message whose array content is the vector sent and whose remaining
    fields are the arguments sent. *)
Theorem send_many_with_delivers {E} `{FixedWidth E} {Tail}
    `{MessageType (array_message E Tail)} `{Further Tail} (tail_init : Tail)
    (s : sender (array_message E Tail)) (msgs : list E) (args : Tail)
    (q : impl (array_message E Tail)) :
  Z.of_nat (length msgs) <= INT_MAX ->
  Z.of_nat (length msgs * sizeof E) <= ptrdiff_max ->
  exists c,
    send_many_with record_send_many_ s msgs args [] = [c] /\
    many_target c = t_ s /\ many_queue c = id_ (q_ s) /\
    push_call tail_init c q
    = Some {| data_ := data_ q ++ [{| content := msgs; fields := args |}];
              id_ := id_ q |}.
Proof.
  intros Hn Hbytes. eexists. split; [reflexivity|].
  split; [reflexivity|]. split; [reflexivity|].
  unfold push_call; cbn [many_count many_size many_data many_size_of_other
                          many_other].
  rewrite to_int_small by (unfold INT_MIN; lia).
  unfold unsafe_push_array.
  pose proof (sizeof_message_pos (M := array_message E Tail)) as Hs.
  replace (sizeof_message (array_message E Tail) =? 0) with false
    by (symmetry; apply Z.eqb_neq; lia).
  cbn [mbind option_bind].
  rewrite <- (app_nil_r (encode_each msgs)) at 1.
  apply (push_array_pushed tail_init msgs []
           {| content := []; fields := args |} q Hn Hbytes).
Qed.

(** X9.  What [send_many] without further fields hands to the world
    (no other message, size 0) delivers, through [unsafe_push_array], one
    message whose array content is the vector sent. *)
Theorem send_many_delivers {E} `{FixedWidth E}
    (s : sender (array_message E unit)) (msgs : list E)
    (q : impl (array_message E unit)) :
  Z.of_nat (length msgs) <= INT_MAX ->
  Z.of_nat (length msgs * sizeof E) <= ptrdiff_max ->
  exists c,
    send_many record_send_many_ s msgs [] = [c] /\
    many_target c = t_ s /\ many_queue c = id_ (q_ s) /\
    push_call tt c q
    = Some {| data_ := data_ q ++ [{| content := msgs; fields := tt |}];
              id_ := id_ q |}.
Proof.
  intros Hn Hbytes. eexists. split; [reflexivity|].
  split; [reflexivity|]. split; [reflexivity|].
  unfold push_call; cbn [many_count many_size many_data many_size_of_other
                          many_other].
  rewrite to_int_small by (unfold INT_MIN; lia).
  unfold unsafe_push_array.
  cbn [Z.eqb further no_further mbind option_bind].
  rewrite <- (app_nil_r (encode_each msgs)) at 1.
  apply (push_array_pushed tt msgs [] (array_message_init tt) q Hn Hbytes).
Qed.

(** X10.  [get_buffer_] rounds down: for every byte count from the size
    of one message to [INT_MAX] the buffer gets as many slots as fit in
    that many bytes, so when the count is no multiple of the message size
    the storage returned is short of it by the remainder. *)
Theorem get_buffer_rounds_down {M} `{MessageType M} (n : Z) (q : impl M) :
  sizeof_message M <= n <= INT_MAX ->
  exists q',
    get_buffer_ n q = Some (0%nat, q') /\
    size q' * sizeof_message M = n - n mod sizeof_message M /\
    data_ q' = take (Z.to_nat (n / sizeof_message M)) (data_ q)
               ++ replicate (Z.to_nat (n / sizeof_message M)
                             - length (data_ q)) message_init.
Proof.
  intros Hn.
  pose proof size_t_modulus_ptrdiff as Hp. pose proof ptrdiff_max_ge as Hge.
  pose proof (sizeof_message_pos (M := M)) as Hs.
  assert (Hq : 0 < n / sizeof_message M)
    by (apply Z.div_str_pos; lia).
  eexists. unfold get_buffer_.
  rewrite (to_size_t_small n) by lia.
  replace (max_messages <? n / sizeof_message M) with false.
  2:{ symmetry. apply Z.ltb_ge. unfold max_messages.
      apply Z.div_le_mono; lia. }
  replace (n / sizeof_message M =? 0) with false
    by (symmetry; apply Z.eqb_neq; lia).
  split; [reflexivity|]. cbn [data_]. split.
  - unfold size; cbn [data_]. rewrite length_resize, Z2Nat.id by lia.
    assert (Hne : sizeof_message M <> 0) by lia.
    pose proof (Z.div_mod n (sizeof_message M) Hne) as Hd.
    rewrite Z.mul_comm. lia.
  - apply resize_spec.
Qed.

End QueueOpsFacts.

Lemma zero_lt_32 : 0 < 32.
Proof. lia. Qed.

(** The message type of a queue of [int[]] with one further [int]. *)
Definition tagged_array_message : MessageType (array_message int Z) :=
  {| sizeof_message := 32; sizeof_message_pos := zero_lt_32;
     message_init := {| content := []; fields := 0 |} |}.

Lemma send_many_with_delivers_witness :
  exists c,
    @send_many_with int _ Z _ record_send_many_ tagged_array_message
       {| q_ := {| data_ := []; id_ := 3 |}; t_ := 1 |}
       [int_cast 10; int_cast 20; int_cast 30] 7 [] = [c] /\
    many_target c = 1 /\ many_queue c = 3 /\
    @push_call host64 int _ Z with_tag 0 c {| data_ := []; id_ := 3 |}
    = Some {| data_ := [{| content := [int_cast 10; int_cast 20; int_cast 30];
                           fields := 7 |}];
              id_ := 3 |}.
Proof.
  apply (@send_many_with_delivers host64 int _ Z tagged_array_message
           with_tag 0
           {| q_ := {| data_ := []; id_ := 3 |}; t_ := 1 |}
           [int_cast 10; int_cast 20; int_cast 30] 7
           {| data_ := []; id_ := 3 |}).
  - cbn. unfold INT_MAX. lia.
  - discriminate.
Defined.

Lemma send_many_delivers_witness :
  exists c,
    @send_many int _ _ record_send_many_
       {| q_ := {| data_ := []; id_ := 3 |}; t_ := 0 |}
       [int_cast 10; int_cast 20; int_cast 30] [] = [c] /\
    many_target c = 0 /\ many_queue c = 3 /\
    @push_call host64 int _ unit _ tt c {| data_ := []; id_ := 3 |}
    = Some {| data_ := [{| content := [int_cast 10; int_cast 20; int_cast 30];
                           fields := tt |}];
              id_ := 3 |}.
Proof.
  apply (@send_many_delivers host64 int _
           {| q_ := {| data_ := []; id_ := 3 |}; t_ := 0 |}
           [int_cast 10; int_cast 20; int_cast 30]
           {| data_ := []; id_ := 3 |}).
  - cbn. unfold INT_MAX. lia.
  - discriminate.
Defined.

Lemma get_buffer_rounds_down_witness :
  exists q',
    @get_buffer_ host64 int int_message 14 {| data_ := []; id_ := 0 |}
    = Some (0%nat, q') /\
    size q' * 4 = 14 - 14 mod 4 /\
    data_ q' = take (Z.to_nat (14 / 4)) []
               ++ replicate (Z.to_nat (14 / 4) - 0) (int_cast 0).
Proof.
  apply (@get_buffer_rounds_down host64 int int_message 14
           {| data_ := []; id_ := 0 |}).
  unfold INT_MAX. cbn. lia.
Defined.

End QueueOps.

(** ** More of the Epiphany stream: seeking, reading and closing *)

Module StreamOps.
Import Machine Stream.

(** [bool is_valid() const] *)
Definition is_valid (s : stream) : bool := negb (stream_id s =? -1).

Definition set_stream_id (id : Z) (s : stream) : stream :=
  {| buffer := buffer s; capacity := capacity s; offset := offset s;
     size := size s; stream_id := id; cursor := cursor s;
     dma_busy := dma_busy s; dma_pushed := dma_pushed s |}.


(** [void close()].  [pids] are the fields [combuf_->streams[i].pid] of
    the shared communication buffer; an index outside that array is
    undefined. *)
Definition close (s : stream) (pids : list Z) : option (stream * list Z) :=
  if stream_id s =? -1 then Some (s, pids)
  else
    let s1 := wait s in
    if (0 <=? stream_id s1) && (stream_id s1 <? Z.of_nat (length pids)) then
      Some (set_stream_id (-1) s1, <[Z.to_nat (stream_id s1) := -1]> pids)
    else None.



(** [int read(void* buffer, size_t size, bool wait_for_completion)].  The
    parameters [buffer] and [size] hide the members of the same names, so
    the bytes remaining are counted from the destination. *)
Definition read (buffer size : Z) (wait_for_completion : bool) (s : stream) : Z * stream :=
  let remaining := to_unsigned (to_unsigned (buffer + size) - cursor s) in
  if remaining =? 0 then (0, s)
  else
    let size := if remaining <? size then remaining else size in
    let s1 := wait s in
    let s2 := dma_push buffer (cursor s1) size 1 s1 in
    let s3 := set_cursor (to_unsigned (cursor s2 + size)) s2 in
    let s4 := if wait_for_completion then wait s3 else s3 in
    (to_int size, s4).

(** The cursor and the capacity are whole double words away from the
    start of the buffer. *)
Definition aligned (s : stream) : Prop :=
  (cursor s - buffer s) mod 8 = 0 /\ capacity s mod 8 = 0.

Lemma to_unsigned_small z : 0 <= z < 2 ^ 32 -> to_unsigned z = z.
Proof. intros Hz. unfold to_unsigned. apply Z.mod_small, Hz. Qed.



Lemma to_unsigned_sub_l a b : to_unsigned (to_unsigned a - b) = to_unsigned (a - b).
Proof. unfold to_unsigned. apply Zminus_mod_idemp_l. Qed.

(** The size as [write] rounds it. *)
Definition rounded (size : Z) : Z :=
  to_unsigned (to_unsigned (to_unsigned (to_unsigned (size + 8) - 1) / 8) * 8).

Lemma rounded_mod8 size : rounded size mod 8 = 0.
Proof.
  unfold rounded. generalize (to_unsigned (to_unsigned (size + 8) - 1)).
  intros z. unfold to_unsigned. change (2 ^ 32) with 4294967296.
  Z.div_mod_to_equations. lia.
Qed.

Lemma to_int_mod8 z : to_int z mod 8 = z mod 8.
Proof.
  unfold to_int. change (2 ^ 32) with 4294967296.
  change (2 ^ 31) with 2147483648.
  Z.div_mod_to_equations. lia.
Qed.

Lemma rounded_small size :
  0 <= size <= INT_MAX - 7 -> rounded size = round_up8 size.
Proof.
  unfold INT_MAX, rounded, round_up8. intros Hs.
  rewrite to_unsigned_sub_l. replace (size + 8 - 1) with (size + 7) by lia.
  rewrite (to_unsigned_small (size + 7)) by lia.
  assert (0 <= (size + 7) / 8 <= size + 7) by (Z.div_mod_to_equations; lia).
  rewrite (to_unsigned_small ((size + 7) / 8)) by lia.
  apply to_unsigned_small.
  assert ((size + 7) / 8 * 8 <= size + 7) by (Z.div_mod_to_equations; lia).
  lia.
Qed.

(** X11.  Whatever the stream and the size, [write] either refuses (it
    returns -1 and leaves the stream as it was) or pushes exactly one
    transfer, on engine 1, of a number of bytes that is a multiple of 8,
    and returns a multiple of 8. *)
Theorem write_pushes_double_words (s : stream) (data size : Z) (wait_for_completion : bool) :
  write data size wait_for_completion s = (-1, s) \/
  exists t,
    dma_pushed (snd (write data size wait_for_completion s))
    = dma_pushed s ++ [t] /\
    dma_nbytes t mod 8 = 0 /\ dma_engine t = 1 /\
    dma_dst t = cursor s /\ dma_src t = data /\
    fst (write data size wait_for_completion s) mod 8 = 0.
Proof.
  unfold write.
  destruct (to_unsigned (to_unsigned (buffer s + capacity s) - cursor s) <? size);
    [left; reflexivity | right].
  cbv zeta. fold (rounded size).
  eexists. cbn [fst snd]. split.
  - destruct wait_for_completion; cbn [wait set_cursor dma_push dma_pushed];
      reflexivity.
  - cbn [dma_nbytes dma_engine dma_dst dma_src wait cursor].
    repeat split. + apply rounded_mod8.
    + rewrite to_int_mod8. apply rounded_mod8.
Qed.

(** X12.  Writes to a stream whose cursor and capacity are whole double
    words keep the cursor inside the buffer: after [write], whatever the
    size and whether it was refused or not, the cursor is again in the
    buffer or at its end and again aligned, and the buffer is the same. *)
Theorem aligned_write_stays_inside (s : stream) (data size : Z) (wait_for_completion : bool) :
  stream_ok s -> aligned s ->
  0 <= buffer s -> buffer s + capacity s < 2 ^ 32 ->
  0 <= size < 2 ^ 32 ->
  stream_ok (snd (write data size wait_for_completion s)) /\
  aligned (snd (write data size wait_for_completion s)) /\
  buffer (snd (write data size wait_for_completion s)) = buffer s /\
  capacity (snd (write data size wait_for_completion s)) = capacity s.
Proof.
  intros (Hc & Hcap) (Hac & Hacap) Hb Hend Hsize. unfold INT_MAX in Hcap.
  unfold write. rewrite to_unsigned_sub_l.
  rewrite (to_unsigned_small (buffer s + capacity s - cursor s)) by lia.
  destruct (buffer s + capacity s - cursor s <? size) eqn:Efit.
  - cbn [snd]. repeat split; assumption || (unfold INT_MAX; lia).
  - apply Z.ltb_ge in Efit. cbv zeta. fold (rounded size).
    rewrite rounded_small by (unfold INT_MAX; lia).
    assert (Hrem : (buffer s + capacity s - cursor s) mod 8 = 0).
    { revert Hac Hacap. Z.div_mod_to_equations. lia. }
    assert (Hr : size <= round_up8 size <= buffer s + capacity s - cursor s).
    { unfold round_up8. revert Hrem. Z.div_mod_to_equations. lia. }
    assert (Hr8 : round_up8 size mod 8 = 0).
    { unfold round_up8. apply Z.mod_mul. lia. }
    assert (Hcur : to_unsigned (cursor s + round_up8 size)
                   = cursor s + round_up8 size)
      by (apply to_unsigned_small; lia).
    cbn [snd].
    destruct wait_for_completion;
      unfold stream_ok, aligned, wait, set_cursor, dma_push;
      cbn [buffer capacity cursor]; rewrite Hcur;
      (repeat split; try (unfold INT_MAX; lia);
       revert Hac Hr8; Z.div_mod_to_equations; lia).
Qed.




(** X16.  [close] on an open stream gives up the slot of the stream in
    the communication buffer (its pid becomes -1, the other slots keep
    theirs) and makes the stream invalid; closing once more changes
    nothing. *)
Theorem close_releases_slot (s : stream) (pids : list Z) :
  is_valid s = true -> 0 <= stream_id s < Z.of_nat (length pids) ->
  exists s',
    close s pids
    = Some (s', <[Z.to_nat (stream_id s) := -1]> pids) /\
    is_valid s' = false /\ cursor s' = cursor s /\ dma_busy s' = false /\
    <[Z.to_nat (stream_id s) := -1]> pids !! Z.to_nat (stream_id s)
    = Some (-1) /\
    close s' (<[Z.to_nat (stream_id s) := -1]> pids)
    = Some (s', <[Z.to_nat (stream_id s) := -1]> pids).
Proof.
  intros Hv Hid. unfold is_valid in Hv. apply negb_true_iff in Hv.
  unfold close. rewrite Hv. cbn [wait stream_id].
  replace (0 <=? stream_id s) with true by (symmetry; apply Z.leb_le; lia).
  replace (stream_id s <? Z.of_nat (length pids)) with true
    by (symmetry; apply Z.ltb_lt; lia).
  cbn [andb]. eexists. split; [reflexivity|].
  cbn [set_stream_id is_valid stream_id cursor dma_busy Z.eqb negb].
  repeat split.
  apply list_lookup_insert_eq. lia.
Qed.

(** A stream on a buffer of 16 bytes in external memory that holds the
    second window of 16 bytes of its data, the cursor 8 bytes in. *)
Definition stream_at_8 : stream :=
  {| buffer := 2382364672; capacity := 16; offset := 16; size := 16;
     stream_id := 1; cursor := 2382364680; dma_busy := true;
     dma_pushed := [] |}.

Lemma aligned_write_stays_inside_witness :
  stream_ok (snd (write 4096 3 true stream_at_8)) /\
  aligned (snd (write 4096 3 true stream_at_8)) /\
  buffer (snd (write 4096 3 true stream_at_8)) = buffer stream_at_8 /\
  capacity (snd (write 4096 3 true stream_at_8)) = capacity stream_at_8.
Proof.
  apply (aligned_write_stays_inside stream_at_8 4096 3 true).
  - unfold stream_ok, stream_at_8, INT_MAX; cbn [buffer capacity cursor]. lia.
  - unfold aligned, stream_at_8; cbn [buffer capacity cursor].
    split; reflexivity.
  - unfold stream_at_8; cbn [buffer]. lia.
  - unfold stream_at_8; cbn [buffer capacity]. lia.
  - lia.
Defined.




Lemma close_releases_slot_witness :
  exists s',
    close stream_at_8 [7; 7; 7]
    = Some (s', <[Z.to_nat (stream_id stream_at_8) := -1]> [7; 7; 7]) /\
    is_valid s' = false /\ cursor s' = cursor stream_at_8 /\
    dma_busy s' = false /\
    <[Z.to_nat (stream_id stream_at_8) := -1]> [7; 7; 7]
      !! Z.to_nat (stream_id stream_at_8)
    = Some (-1) /\
    close s' (<[Z.to_nat (stream_id stream_at_8) := -1]> [7; 7; 7])
    = Some (s', <[Z.to_nat (stream_id stream_at_8) := -1]> [7; 7; 7]).
Proof.
  apply (close_releases_slot stream_at_8 [7; 7; 7]).
  - reflexivity.
  - unfold stream_at_8; cbn [stream_id length]. lia.
Defined.

End StreamOps.

(** ** The DMA descriptor: [bulk::epiphany::dma_task::set] *)

Module Dma.
Import Machine Stream StreamOps.

(** The descriptor as the hardware reads it. *)
Record dma_task := {
  config : Z;
  inner_stride : Z;
  count : Z;
  outer_stride : Z;
  src_addr : Z;
  dst_addr : Z
}.

(** The alignment index of [set]: the low three bits of destination,
    source and byte count together. *)
Definition alignment_index (dst src nbytes : Z) : Z :=
  Z.land (Z.lor (Z.lor (to_unsigned dst) (to_unsigned src)) (to_unsigned nbytes)) 7.

Section SetTask.
(** The flags of [e_dma.h] and the table [dma_data_size] of the Epiphany
    library, which the repository only declares. *)
Variables E_DMA_MASTER E_DMA_ENABLE E_DMA_IRQEN E_DMA_MSGMODE : Z.
Variable dma_data_size : list Z.

(** [void set(void* dst, const void* src, size_t nbytes)]; reading the
    table outside its entries is undefined. *)
Definition set (dst src nbytes : Z) : option dma_task :=
  let index := alignment_index dst src nbytes in
  entry ← dma_data_size !! Z.to_nat index;
  let shift := Z.shiftr entry 5 in
  let config :=
    Z.lor (Z.lor (Z.lor E_DMA_MASTER E_DMA_ENABLE) E_DMA_IRQEN) entry in
  let config :=
    if Z.land (to_unsigned dst) 4293918720 =? 0
    then Z.lor config E_DMA_MSGMODE else config in
  Some {| config := config;
          inner_stride := to_unsigned (Z.shiftl 65537 shift);
          count := Z.lor 65536 (Z.shiftr (to_unsigned nbytes) shift);
          outer_stride := 0;
          src_addr := src;
          dst_addr := dst |}.

End SetTask.

Lemma land_7 z : Z.land z 7 = z mod 8.
Proof. change 7 with (Z.ones 3). rewrite Z.land_ones by lia. reflexivity. Qed.

Lemma alignment_index_range dst src nbytes :
  0 <= alignment_index dst src nbytes < 8.
Proof.
  unfold alignment_index. rewrite land_7. apply Z.mod_pos_bound. lia.
Qed.

Lemma alignment_index_zero dst src nbytes :
  alignment_index dst src nbytes = 0 <->
  dst mod 8 = 0 /\ src mod 8 = 0 /\ nbytes mod 8 = 0.
Proof.
  unfold alignment_index.
  rewrite !Z.land_lor_distr_l, !Z.lor_eq_0_iff, !land_7.
  assert (Hm : forall z, to_unsigned z mod 8 = z mod 8).
  { intros z. unfold to_unsigned. change (2 ^ 32) with 4294967296.
    Z.div_mod_to_equations. lia. }
  rewrite !Hm. tauto.
Qed.

(** X17.  [set] never reads outside the table of eight data sizes,
    whatever the addresses and the byte count, and the descriptor it
    builds uses the entry it reads there: the entry is part of [config],
    its shift (the entry shifted right by 5) scales the inner stride and
    divides the byte count in [count]; the addresses are stored as they
    were given.  The entry read is entry 0 exactly when destination, source
    and byte count are all multiples of 8. *)
Theorem set_picks_entry (E_DMA_MASTER E_DMA_ENABLE E_DMA_IRQEN E_DMA_MSGMODE : Z)
    (dma_data_size : list Z) (dst src nbytes : Z) :
  length dma_data_size = 8%nat ->
  exists entry,
    dma_data_size !! Z.to_nat (alignment_index dst src nbytes) = Some entry /\
    set E_DMA_MASTER E_DMA_ENABLE E_DMA_IRQEN E_DMA_MSGMODE dma_data_size
        dst src nbytes
    = Some {| config :=
                (if Z.land (to_unsigned dst) 4293918720 =? 0
                 then Z.lor (Z.lor (Z.lor (Z.lor E_DMA_MASTER E_DMA_ENABLE)
                                          E_DMA_IRQEN) entry)
                            E_DMA_MSGMODE
                 else Z.lor (Z.lor (Z.lor E_DMA_MASTER E_DMA_ENABLE)
                                   E_DMA_IRQEN) entry);
              inner_stride := to_unsigned (Z.shiftl 65537 (Z.shiftr entry 5));
              count := Z.lor 65536
                         (Z.shiftr (to_unsigned nbytes) (Z.shiftr entry 5));
              outer_stride := 0;
              src_addr := src;
              dst_addr := dst |} /\
    (Z.to_nat (alignment_index dst src nbytes) = 0%nat <->
     dst mod 8 = 0 /\ src mod 8 = 0 /\ nbytes mod 8 = 0).
Proof.
  intros Hlen. pose proof (alignment_index_range dst src nbytes) as Hr.
  destruct (lookup_lt_is_Some_2 dma_data_size
              (Z.to_nat (alignment_index dst src nbytes)) ltac:(lia))
    as [entry He].
  exists entry. split; [exact He|]. split.
  - unfold set. cbv zeta. rewrite He. cbn [mbind option_bind]. reflexivity.
  - rewrite <- alignment_index_zero. lia.
Qed.

(** X18.  A [write] to a stream from a buffer at a multiple of 8, with the
    cursor at a multiple of 8, is refused or pushes a transfer that [set]
    gives alignment index 0: the double-word entry of the table. *)
Theorem write_pushes_aligned (s : stream) (data size : Z) (wait_for_completion : bool) :
  cursor s mod 8 = 0 -> data mod 8 = 0 ->
  write data size wait_for_completion s = (-1, s) \/
  exists t,
    dma_pushed (snd (write data size wait_for_completion s))
    = dma_pushed s ++ [t] /\
    alignment_index (dma_dst t) (dma_src t) (dma_nbytes t) = 0.
Proof.
  intros Hc Hd. unfold write.
  destruct (to_unsigned (to_unsigned (buffer s + capacity s) - cursor s) <? size);
    [left; reflexivity | right].
  cbv zeta. fold (rounded size). eexists. cbn [fst snd]. split.
  - destruct wait_for_completion; cbn [wait set_cursor dma_push dma_pushed];
      reflexivity.
  - cbn [dma_nbytes dma_dst dma_src wait cursor].
    apply alignment_index_zero. repeat split; try assumption.
    apply rounded_mod8.
Qed.

Lemma set_picks_entry_witness :
  exists entry,
    [96; 0; 32; 0; 64; 0; 32; 0]
      !! Z.to_nat (alignment_index 2382364672 4096 16) = Some entry /\
    set 4 1 2 1024 [96; 0; 32; 0; 64; 0; 32; 0] 2382364672 4096 16
    = Some {| config :=
                (if Z.land (to_unsigned 2382364672) 4293918720 =? 0
                 then Z.lor (Z.lor (Z.lor (Z.lor 4 1) 2) entry) 1024
                 else Z.lor (Z.lor (Z.lor 4 1) 2) entry);
              inner_stride := to_unsigned (Z.shiftl 65537 (Z.shiftr entry 5));
              count := Z.lor 65536
                         (Z.shiftr (to_unsigned 16) (Z.shiftr entry 5));
              outer_stride := 0;
              src_addr := 4096;
              dst_addr := 2382364672 |} /\
    (Z.to_nat (alignment_index 2382364672 4096 16) = 0%nat <->
     2382364672 mod 8 = 0 /\ 4096 mod 8 = 0 /\ 16 mod 8 = 0).
Proof.
  apply (set_picks_entry 4 1 2 1024 [96; 0; 32; 0; 64; 0; 32; 0]
           2382364672 4096 16).
  reflexivity.
Defined.

Lemma write_pushes_aligned_witness :
  write 4096 3 true stream_at_8 = (-1, stream_at_8) \/
  exists t,
    dma_pushed (snd (write 4096 3 true stream_at_8))
    = dma_pushed stream_at_8 ++ [t] /\
    alignment_index (dma_dst t) (dma_src t) (dma_nbytes t) = 0.
Proof.
  apply (write_pushes_aligned stream_at_8 4096 3 true); reflexivity.
Defined.

End Dma.

(** ** The host side: [bulk::epiphany::provider] and its streams *)

Module Provider.
Import Machine.

(** Of [stream_descriptor], which [combuf.hpp] declares, the fields the
    code uses. *)
Record stream_descriptor := { d_offset : Z; d_size : Z }.

Section Host.
(** What lies outside the provider: the external memory with its
    allocator [ext_malloc_], and whatever the callbacks of a stream work
    on.  A read callback is called with the buffer, an offset and a size
    and returns an [int]. *)
Context {Ext : Type}.
Variable ext_malloc_ : Z -> Ext -> Z * Ext.

Definition read_callback : Type := Z -> Z -> Z -> Ext -> Z * Ext.
Context {write_callback : Type}.

(** [provider::stream]; [descriptor] is [None] for a null pointer. *)
Record stream := {
  buffer : Z;
  capacity : Z;
  descriptor : option stream_descriptor;
  read : read_callback;
  write : write_callback
}.

(** The members of [provider] that [create_stream] touches. *)
Record provider := {
  env_initialized_ : Z;
  streams : list stream;
  ext : Ext
}.

(** [bool is_valid() const] *)
Definition is_valid (p : provider) : bool := 2 <=? env_initialized_ p.

(** [bool create_stream(read, write, uint32_t capacity)]; an empty
    [std::function] is [None]. *)
Definition create_stream (read : option read_callback)
    (write : option write_callback) (capacity : Z) (p : provider)
    : bool * provider :=
  if negb (env_initialized_ p =? 2) then (false, p)
  else if capacity =? 0 then (false, p)
  else
    match read, write with
    | Some read, Some write =>
        let capacity :=
          to_unsigned (to_unsigned (to_unsigned (capacity + 7) / 8) * 8) in
        let (buffer, ext') := ext_malloc_ capacity (ext p) in
        if buffer =? 0 then
          (false, {| env_initialized_ := env_initialized_ p;
                     streams := streams p; ext := ext' |})
        else
          let s := {| buffer := buffer; capacity := to_int capacity;
                      descriptor := None; read := read; write := write |} in
          (true, {| env_initialized_ := env_initialized_ p;
                    streams := streams p ++ [s]; ext := ext' |})
    | _, _ => (false, p)
    end.

(** [void stream::fill_stream()]: the stream and the outside after the
    call; undefined when the stream has no descriptor. *)
Definition fill_stream (s : stream) (e : Ext) : option (stream * Ext) :=
  d ← descriptor s;
  let (ret, e') := read s (buffer s) (to_unsigned (d_offset d))
                        (to_unsigned (capacity s)) e in
  let ret := to_int ret in
  let d' :=
    if capacity s <? ret then d
    else if ret <? -1 then d
    else if ret =? -1 then {| d_offset := d_offset d; d_size := -1 |}
    else if ret =? 0 then {| d_offset := d_offset d; d_size := 0 |}
    else {| d_offset := d_offset d; d_size := ret |} in
  Some ({| buffer := buffer s; capacity := capacity s;
           descriptor := Some d'; read := read s; write := write s |}, e').

End Host.

Section Pointers.
(** The host address [combuf_] of the shared buffer and its Epiphany
    address [E_COMBUF_ADDR]. *)
Variables combuf_ E_COMBUF_ADDR : Z.

(** [void* host_to_e_pointer_(void* ptr)] *)
Definition host_to_e_pointer_ (ptr : Z) : Z :=
  to_unsigned (to_unsigned (to_unsigned ptr - to_unsigned combuf_) + E_COMBUF_ADDR).

(** [void* e_to_host_pointer_(void* ptr)] *)
Definition e_to_host_pointer_ (ptr : Z) : Z :=
  to_unsigned (to_unsigned (to_unsigned ptr - E_COMBUF_ADDR) + to_unsigned combuf_).

End Pointers.

(** The read callback of [create_stream(void* data, uint32_t data_size,
    uint32_t capacity)]: the value returned and the bytes copied to the
    destination; undefined when the copy reads outside [data]. *)
Definition data_read (data : list byte) (data_size offset size_requested : Z)
    : option (Z * list byte) :=
  let size_requested :=
    if to_unsigned (data_size - offset) <? size_requested
    then to_unsigned (data_size - offset) else size_requested in
  if size_requested <=? 0 then Some (-1, [])
  else
    bytes ← Serialize.memcpy_from data offset size_requested;
    Some (to_int size_requested, bytes).

Section HostFacts.
Context {Ext : Type} {write_callback : Type}.
Variable ext_malloc_ : Z -> Ext -> Z * Ext.

Abbreviation stream := (@stream Ext write_callback).
Abbreviation provider := (@provider Ext write_callback).

(** X19.  When [create_stream] refuses, it adds no stream and leaves the
    state of the environment as it was, and it refuses for one of five
    reasons only: the environment is not in state 2, the capacity is 0, a
    callback is missing, or the allocation of the rounded capacity returned
    null. *)
Theorem create_stream_refusal (read : option (@read_callback Ext))
    (write : option write_callback) (capacity : Z) (p : provider) :
  fst (create_stream ext_malloc_ read write capacity p) = false ->
  streams (snd (create_stream ext_malloc_ read write capacity p))
  = streams p /\
  env_initialized_ (snd (create_stream ext_malloc_ read write capacity p))
  = env_initialized_ p /\
  (env_initialized_ p <> 2 \/ capacity = 0 \/ read = None \/ write = None \/
   fst (ext_malloc_
          (to_unsigned (to_unsigned (to_unsigned (capacity + 7) / 8) * 8))
          (ext p)) = 0).
Proof.
  unfold create_stream.
  destruct (env_initialized_ p =? 2) eqn:Eenv; cbn [negb].
  2:{ apply Z.eqb_neq in Eenv. cbn [fst snd]. tauto. }
  destruct (capacity =? 0) eqn:Ecap.
  { apply Z.eqb_eq in Ecap. cbn [fst snd]. tauto. }
  destruct read as [read|], write as [write|]; cbn [fst snd]; try tauto.
  cbv zeta.
  destruct (ext_malloc_ _ (ext p)) as [buf e'] eqn:Em. cbn [fst].
  destruct (buf =? 0) eqn:Eb; cbn [fst snd env_initialized_ streams].
  - apply Z.eqb_eq in Eb. apply Z.eqb_eq in Eenv. tauto.
  - discriminate.
Qed.

(** X20.  When [create_stream] succeeds for a capacity from 1 to
    [INT_MAX - 7], it appends exactly one stream, behind those that were
    there: its buffer is the allocation, its capacity the requested one
    rounded up to the next multiple of 8 (less than 8 more, and again at
    most [INT_MAX - 7]), and it has no descriptor yet. *)
Theorem create_stream_appends (read : @read_callback Ext)
    (write : write_callback) (capacity buf : Z) (e' : Ext) (p : provider) :
  env_initialized_ p = 2 -> 0 < capacity <= INT_MAX - 7 ->
  ext_malloc_ ((capacity + 7) / 8 * 8) (ext p) = (buf, e') -> buf <> 0 ->
  create_stream ext_malloc_ (Some read) (Some write) capacity p
  = (true,
     {| env_initialized_ := 2;
        streams := streams p
                   ++ [{| buffer := buf; capacity := (capacity + 7) / 8 * 8;
                          descriptor := None; read := read;
                          write := write |}];
        ext := e' |}) /\
  capacity <= (capacity + 7) / 8 * 8 < capacity + 8 /\
  ((capacity + 7) / 8 * 8) mod 8 = 0 /\
  (capacity + 7) / 8 * 8 <= INT_MAX - 7.
Proof.
  unfold INT_MAX. intros Henv Hcap Hm Hbuf.
  assert (Hr1 : capacity <= (capacity + 7) / 8 * 8 < capacity + 8)
    by (Z.div_mod_to_equations; lia).
  assert (Hr2 : ((capacity + 7) / 8 * 8) mod 8 = 0)
    by (apply Z.mod_mul; lia).
  assert (Hr3 : (capacity + 7) / 8 * 8 <= 2 ^ 31 - 1 - 7).
  { revert Hr2. Z.div_mod_to_equations. lia. }
  assert (Hround :
            to_unsigned (to_unsigned (to_unsigned (capacity + 7) / 8) * 8)
            = (capacity + 7) / 8 * 8).
  { unfold to_unsigned. rewrite (Z.mod_small (capacity + 7)) by lia.
    assert (0 <= (capacity + 7) / 8 <= capacity + 7)
      by (Z.div_mod_to_equations; lia).
    rewrite (Z.mod_small ((capacity + 7) / 8)) by lia.
    apply Z.mod_small. lia. }
  repeat split; try assumption; try lia.
  unfold create_stream. rewrite Henv. cbn [Z.eqb Pos.eqb negb].
  replace (capacity =? 0) with false by (symmetry; apply Z.eqb_neq; lia).
  cbv zeta. rewrite Hround, Hm.
  replace (buf =? 0) with false by (symmetry; apply Z.eqb_neq; exact Hbuf).
  rewrite to_int_small by (unfold INT_MIN, INT_MAX; lia). reflexivity.
Qed.

(** X21.  [fill_stream] keeps the size in the descriptor between -1 and
    the capacity: a value returned by the read callback inside that range
    becomes the size, any other value leaves the size as it was; offset,
    buffer and capacity are not touched.  A stream without a descriptor,
    as [create_stream] leaves it, cannot be filled. *)
Theorem fill_stream_keeps_size_in_range (s : stream) (d : stream_descriptor)
    (e e' : Ext) (ret : Z) :
  descriptor s = Some d -> -1 <= d_size d <= capacity s ->
  read s (buffer s) (to_unsigned (d_offset d)) (to_unsigned (capacity s)) e
  = (ret, e') ->
  INT_MIN <= ret <= INT_MAX ->
  exists d',
    fill_stream s e
    = Some ({| buffer := buffer s; capacity := capacity s;
               descriptor := Some d'; read := read s; write := write s |},
            e') /\
    -1 <= d_size d' <= capacity s /\
    d_offset d' = d_offset d /\
    d_size d' = (if (-1 <=? ret) && (ret <=? capacity s) then ret
                 else d_size d) /\
    fill_stream {| buffer := buffer s; capacity := capacity s;
                   descriptor := None; read := read s; write := write s |} e
    = None.
Proof.
  intros Hd Hsize Hread Hret. unfold fill_stream. rewrite Hd.
  cbn [mbind option_bind descriptor]. rewrite Hread.
  rewrite to_int_small by exact Hret. eexists. split; [reflexivity|].
  destruct (capacity s <? ret) eqn:E1.
  { apply Z.ltb_lt in E1.
    replace (ret <=? capacity s) with false by (symmetry; apply Z.leb_gt; lia).
    rewrite andb_false_r. repeat split; lia. }
  apply Z.ltb_ge in E1.
  replace (ret <=? capacity s) with true by (symmetry; apply Z.leb_le; lia).
  rewrite andb_true_r.
  destruct (ret <? -1) eqn:E2.
  { apply Z.ltb_lt in E2.
    replace (-1 <=? ret) with false by (symmetry; apply Z.leb_gt; lia).
    repeat split; lia. }
  apply Z.ltb_ge in E2.
  replace (-1 <=? ret) with true by (symmetry; apply Z.leb_le; lia).
  destruct (ret =? -1) eqn:E3.
  { apply Z.eqb_eq in E3. cbn [d_size d_offset]. repeat split; lia. }
  destruct (ret =? 0) eqn:E4.
  { apply Z.eqb_eq in E4. cbn [d_size d_offset]. repeat split; lia. }
  cbn [d_size d_offset]. repeat split; lia.
Qed.

End HostFacts.

(** A host whose allocations all succeed at address 4096, with one state
    only, and a read callback that always reports 5 bytes. *)
Definition malloc_4096 (n : Z) (e : unit) : Z * unit := (4096, e).

Definition read_5 (buf offset size_requested : Z) (e : unit) : Z * unit :=
  (5, e).

Definition started : @provider unit unit :=
  {| env_initialized_ := 2; streams := []; ext := tt |}.

Definition stream_of_16 : @stream unit unit :=
  {| buffer := 4096; capacity := 16;
     descriptor := Some {| d_offset := 0; d_size := 0 |};
     read := read_5; write := tt |}.

Lemma create_stream_refusal_witness :
  streams (snd (create_stream malloc_4096 (Some read_5) None 13 started))
  = streams started /\
  env_initialized_
    (snd (create_stream malloc_4096 (Some read_5) None 13 started))
  = env_initialized_ started /\
  (env_initialized_ started <> 2 \/ 13 = 0 \/ Some read_5 = None \/
   @None unit = None \/
   fst (malloc_4096
          (to_unsigned (to_unsigned (to_unsigned (13 + 7) / 8) * 8))
          (ext started)) = 0).
Proof.
  apply (create_stream_refusal malloc_4096 (Some read_5) None 13 started).
  reflexivity.
Defined.

Lemma create_stream_appends_witness :
  create_stream malloc_4096 (Some read_5) (Some tt) 13 started
  = (true,
     {| env_initialized_ := 2;
        streams := streams started
                   ++ [{| buffer := 4096; capacity := (13 + 7) / 8 * 8;
                          descriptor := None; read := read_5;
                          write := tt |}];
        ext := tt |}) /\
  13 <= (13 + 7) / 8 * 8 < 13 + 8 /\
  ((13 + 7) / 8 * 8) mod 8 = 0 /\
  (13 + 7) / 8 * 8 <= INT_MAX - 7.
Proof.
  apply (create_stream_appends malloc_4096 read_5 tt 13 4096 tt started).
  - reflexivity.
  - unfold INT_MAX. lia.
  - reflexivity.
  - lia.
Defined.

Lemma fill_stream_keeps_size_in_range_witness :
  exists d',
    fill_stream stream_of_16 tt
    = Some ({| buffer := buffer stream_of_16;
               capacity := capacity stream_of_16;
               descriptor := Some d'; read := read stream_of_16;
               write := write stream_of_16 |}, tt) /\
    -1 <= d_size d' <= capacity stream_of_16 /\
    d_offset d' = d_offset {| d_offset := 0; d_size := 0 |} /\
    d_size d' = (if (-1 <=? 5) && (5 <=? capacity stream_of_16) then 5
                 else d_size {| d_offset := 0; d_size := 0 |}) /\
    fill_stream {| buffer := buffer stream_of_16;
                   capacity := capacity stream_of_16;
                   descriptor := None; read := read stream_of_16;
                   write := write stream_of_16 |} tt
    = None.
Proof.
  apply (fill_stream_keeps_size_in_range stream_of_16
           {| d_offset := 0; d_size := 0 |} tt tt 5).
  - reflexivity.
  - unfold stream_of_16; cbn [d_size capacity]. lia.
  - reflexivity.
  - unfold INT_MIN, INT_MAX. lia.
Defined.

(** X22.  [host_to_e_pointer_] and [e_to_host_pointer_] are inverse to
    each other on 32-bit addresses, whatever the two base addresses, also
    when the subtraction wraps around. *)
Theorem pointer_translation_roundtrip (combuf_ E_COMBUF_ADDR ptr : Z) :
  e_to_host_pointer_ combuf_ E_COMBUF_ADDR
    (host_to_e_pointer_ combuf_ E_COMBUF_ADDR ptr) = to_unsigned ptr /\
  host_to_e_pointer_ combuf_ E_COMBUF_ADDR
    (e_to_host_pointer_ combuf_ E_COMBUF_ADDR ptr) = to_unsigned ptr.
Proof.
  unfold e_to_host_pointer_, host_to_e_pointer_, to_unsigned.
  change (2 ^ 32) with 4294967296.
  split; Z.div_mod_to_equations; lia.
Qed.

(** X23.  The read callback of a stream over host data never copies more
    than what is left of the data: for an offset inside the data it
    returns the smaller of the size requested and the bytes from the
    offset to the end, with exactly those bytes of the data, and -1 with
    nothing copied at the end of the data or for a request of 0 bytes. *)
Theorem data_read_clamps (data : list byte) (offset size_requested : Z) :
  Z.of_nat (length data) <= INT_MAX ->
  0 <= offset <= Z.of_nat (length data) ->
  0 <= size_requested < 2 ^ 32 ->
  data_read data (Z.of_nat (length data)) offset size_requested
  = if Z.min size_requested (Z.of_nat (length data) - offset) =? 0
    then Some (-1, [])
    else Some (Z.min size_requested (Z.of_nat (length data) - offset),
               take (Z.to_nat
                       (Z.min size_requested (Z.of_nat (length data) - offset)))
                    (drop (Z.to_nat offset) data)).
Proof.
  unfold INT_MAX. intros Hlen Hoff Hreq. unfold data_read.
  assert (Hu : to_unsigned (Z.of_nat (length data) - offset)
               = Z.of_nat (length data) - offset)
    by (unfold to_unsigned; apply Z.mod_small; lia).
  rewrite Hu.
  assert (Hmin : (if Z.of_nat (length data) - offset <? size_requested
                  then Z.of_nat (length data) - offset else size_requested)
                 = Z.min size_requested (Z.of_nat (length data) - offset)).
  { destruct (Z.of_nat (length data) - offset <? size_requested) eqn:E;
      [apply Z.ltb_lt in E | apply Z.ltb_ge in E]; lia. }
  cbv zeta. rewrite Hmin.
  set (n := Z.min size_requested (Z.of_nat (length data) - offset)).
  assert (Hn : 0 <= n <= Z.of_nat (length data) - offset) by lia.
  destruct (n =? 0) eqn:En.
  - apply Z.eqb_eq in En. rewrite En. reflexivity.
  - apply Z.eqb_neq in En.
    replace (n <=? 0) with false by (symmetry; apply Z.leb_gt; lia).
    rewrite Serialize.memcpy_from_fits by lia.
    cbn [mbind option_bind].
    rewrite to_int_small by (unfold INT_MIN, INT_MAX; lia). reflexivity.
Qed.

Lemma data_read_clamps_witness :
  data_read [x61; x62; x63; x64; x65] (Z.of_nat (length [x61; x62; x63; x64; x65]))
            3 8
  = (if Z.min 8 (Z.of_nat (length [x61; x62; x63; x64; x65]) - 3) =? 0
     then Some (-1, [])
     else Some (Z.min 8 (Z.of_nat (length [x61; x62; x63; x64; x65]) - 3),
                take (Z.to_nat
                        (Z.min 8
                           (Z.of_nat (length [x61; x62; x63; x64; x65]) - 3)))
                     (drop (Z.to_nat 3) [x61; x62; x63; x64; x65]))).
Proof.
  apply (data_read_clamps [x61; x62; x63; x64; x65] 3 8).
  - unfold INT_MAX; cbn [length]. lia.
  - cbn [length]. lia.
  - lia.
Defined.

(** X24.  For an offset behind the end of the data the callback does not
    report the end: the bytes left are computed by an unsigned
    subtraction that wraps around, so every request of at least one byte
    is served by a copy from outside the data. *)
Theorem data_read_behind_the_end (data : list byte) (offset size_requested : Z) :
  Z.of_nat (length data) < offset < 2 ^ 32 ->
  0 < size_requested < 2 ^ 32 ->
  data_read data (Z.of_nat (length data)) offset size_requested = None.
Proof.
  intros Hoff Hreq. unfold data_read.
  assert (Hu : to_unsigned (Z.of_nat (length data) - offset)
               = Z.of_nat (length data) - offset + 2 ^ 32).
  { unfold to_unsigned. change (2 ^ 32) with 4294967296 in *.
    Z.div_mod_to_equations. lia. }
  rewrite Hu. cbv zeta.
  set (n := if Z.of_nat (length data) - offset + 2 ^ 32 <? size_requested
            then Z.of_nat (length data) - offset + 2 ^ 32
            else size_requested).
  assert (Hn : 0 < n).
  { unfold n.
    destruct (Z.of_nat (length data) - offset + 2 ^ 32 <? size_requested); lia. }
  replace (n <=? 0) with false by (symmetry; apply Z.leb_gt; lia).
  unfold Serialize.memcpy_from.
  replace (offset + n <=? Z.of_nat (length data)) with false
    by (symmetry; apply Z.leb_gt; lia).
  rewrite andb_false_r. reflexivity.
Qed.

Lemma data_read_behind_the_end_witness :
  data_read [x61; x62; x63] (Z.of_nat (length [x61; x62; x63])) 4 1 = None.
Proof.
  apply (data_read_behind_the_end [x61; x62; x63] 4 1); cbn [length]; lia.
Defined.

End Provider.

(** ** Cyclic partitionings: owners, local indices and local sizes together *)

Module CyclicOps.
Import Machine Cyclic.


(** A partitioning with positive grid sizes and sizes that are not
    negative and stay in the range of [int]. *)
Definition sizes_ok (p : cyclic_partitioning) : Prop :=
  partitioning_ok p /\
  (forall d g, grid_size_ p !! d = Some g -> 0 < g) /\
  (forall d n, global_size_ p !! d = Some n -> 0 <= n) /\
  (forall d n g,
      global_size_ p !! d = Some n -> grid_size_ p !! d = Some g ->
      n + g <= INT_MAX).

(** A global index: [0 <= xs[d] < global_size[d]] in each dimension. *)
Definition global_index (p : cyclic_partitioning) (xs : index_type) : Prop :=
  length xs = D p /\
  forall d x n,
    xs !! d = Some x -> global_size_ p !! d = Some n -> 0 <= x < n.

(** The index of a processor in the grid. *)
Definition processor_index (p : cyclic_partitioning) (idxs : index_type) : Prop :=
  length idxs = G p /\
  forall d i g,
    idxs !! d = Some i -> grid_size_ p !! d = Some g -> 0 <= i < g.

(** The global index with local index [loc] on processor [idxs]:
    [loc[d] * grid_size[d] + idxs[d]] in the distributed dimensions,
    [loc[d]] in the others. *)
Definition global_of (p : cyclic_partitioning) (loc idxs : index_type) : index_type :=
  imap (fun d l =>
          match grid_size_ p !! d, idxs !! d with
          | Some g, Some i => l * g + i
          | _, _ => l
          end) loc.

Lemma local_size_at (p : cyclic_partitioning) (idxs : index_type) :
  sizes_ok p -> processor_index p idxs ->
  exists sz,
    local_size p idxs = Some sz /\ length sz = D p /\
    (forall d i n g,
        idxs !! d = Some i -> global_size_ p !! d = Some n ->
        grid_size_ p !! d = Some g ->
        sz !! d = Some ((n + g - i - 1) / g)) /\
    (forall d, (G p <= d)%nat -> sz !! d = global_size_ p !! d).
Proof.
  intros (Hok & Hgrid & Hnn & Hfit) (Hli & Hidx).
  pose proof Hok as (HGD & Hgl & Hgr).
  destruct (for_range_inv
              (fun k (a : index_type) =>
                 length a = D p /\
                 forall d i n g, (d < k)%nat ->
                   idxs !! d = Some i -> global_size_ p !! d = Some n ->
                   grid_size_ p !! d = Some g ->
                   a !! d = Some ((n + g - i - 1) / g))
              (fun dim size =>
                 n ← global_size_ p !! dim; g ← grid_size_ p !! dim;
                 i ← idxs !! dim; a ← int_add n g; b ← int_sub a i;
                 c ← int_sub b 1; q ← int_div c g; store dim q size)
              0 (G p) (replicate (D p) 0)) as (sz1 & Hrun1 & Hlen1 & Hval1).
  { lia. }
  { split; [apply length_replicate | intros; lia]. }
  { intros k a Hk [Hlen Hval].
    destruct (lookup_lt_is_Some_2 idxs k ltac:(lia)) as [i Hi].
    destruct (lookup_lt_is_Some_2 (global_size_ p) k ltac:(lia)) as [n Hn].
    destruct (lookup_lt_is_Some_2 (grid_size_ p) k ltac:(lia)) as [g Hg].
    pose proof (Hgrid k g Hg) as Hg0. pose proof (Hnn k n Hn) as Hn0.
    pose proof (Hfit k n g Hn Hg) as Hng. pose proof (Hidx k i g Hi Hg) as Hig.
    unfold INT_MAX in Hng.
    rewrite Hn, Hg, Hi. cbn [mbind option_bind].
    unfold int_add, int_sub, int_div.
    rewrite (int_checked_in (n + g)) by (unfold INT_MAX, INT_MIN; lia).
    cbn [mbind option_bind].
    rewrite (int_checked_in (n + g - i)) by (unfold INT_MAX, INT_MIN; lia).
    cbn [mbind option_bind].
    rewrite (int_checked_in (n + g - i - 1)) by (unfold INT_MAX, INT_MIN; lia).
    cbn [mbind option_bind].
    replace (g =? 0) with false by (symmetry; apply Z.eqb_neq; lia).
    rewrite (Z.quot_div_nonneg (n + g - i - 1) g) by lia.
    rewrite int_checked_in.
    2:{ unfold INT_MAX, INT_MIN.
        assert (0 <= (n + g - i - 1) / g <= n + g - i - 1)
          by (Z.div_mod_to_equations; nia).
        lia. }
    cbn [mbind option_bind]. rewrite store_in by lia.
    eexists. split; [reflexivity|].
    split; [rewrite length_insert; exact Hlen|].
    intros d i' n' g' Hd Hi' Hn' Hg'. destruct (decide (d = k)) as [->|Hne].
    - rewrite list_lookup_insert_eq by lia. congruence.
    - rewrite list_lookup_insert_ne by congruence.
      apply Hval; [lia|assumption..]. }
  destruct (for_range_inv
              (fun k (a : index_type) =>
                 length a = D p /\
                 (forall d, (d < G p)%nat -> a !! d = sz1 !! d) /\
                 (forall d, (G p <= d < k)%nat -> a !! d = global_size_ p !! d))
              (fun dim size => n ← global_size_ p !! dim; store dim n size)
              (G p) (D p) sz1) as (sz & Hrun2 & Hlen2 & Hlow2 & Hhigh2).
  { exact HGD. }
  { split; [exact Hlen1|]. split; [reflexivity | intros; lia]. }
  { intros k a Hk (Hlen & Hlow & Hhigh).
    destruct (lookup_lt_is_Some_2 (global_size_ p) k ltac:(lia)) as [n Hn].
    rewrite Hn. cbn [mbind option_bind]. rewrite store_in by lia.
    eexists. split; [reflexivity|].
    split; [rewrite length_insert; exact Hlen|]. split.
    - intros d Hd. rewrite list_lookup_insert_ne by lia. apply Hlow, Hd.
    - intros d Hd. destruct (decide (d = k)) as [->|Hne].
      + rewrite list_lookup_insert_eq by lia. congruence.
      + rewrite list_lookup_insert_ne by congruence. apply Hhigh. lia. }
  exists sz. unfold local_size. rewrite Hrun1. cbn [mbind option_bind].
  split; [exact Hrun2|]. split; [exact Hlen2|]. split.
  - intros d i n g Hi Hn Hg.
    assert (Hd : (d < G p)%nat) by (apply lookup_lt_Some in Hg; lia).
    rewrite Hlow2 by exact Hd. apply Hval1; assumption.
  - intros d Hd. destruct (decide (d < D p)%nat) as [Hlt|Hge].
    + apply Hhigh2. lia.
    + rewrite !lookup_ge_None_2 by lia. reflexivity.
Qed.


Lemma quot_rem_of_composed l g i :
  0 <= l -> 0 <= i < g -> (l * g + i) ÷ g = l /\ Z.rem (l * g + i) g = i.
Proof.
  intros Hl Hi.
  destruct (quot_rem_nonneg (l * g + i) g ltac:(nia) ltac:(lia)) as [-> ->].
  split.
  - rewrite Z.div_add_l by lia. rewrite Z.div_small by lia. lia.
  - rewrite Z.add_comm, Z.mod_add by lia. apply Z.mod_small. lia.
Qed.

Lemma ten_by_seven_ok : sizes_ok ten_by_seven.
Proof.
  split; [repeat split; cbn; lia|]. split; [|split].
  - intros [|d] g; cbn; [intros [= <-]; lia | discriminate].
  - intros [|[|d]] n; cbn; try discriminate; intros [= <-]; lia.
  - intros [|d] n g; cbn; [|discriminate].
    intros [= <-] [= <-]. unfold INT_MAX. lia.
Qed.


Lemma ten_by_seven_processor i :
  0 <= i < 4 -> processor_index ten_by_seven [i].
Proof.
  intros Hi. split; [reflexivity|].
  intros [|d] i' g; cbn; try discriminate; intros [= <-] [= <-]; lia.
Qed.





(** X27.  Every local index below the local size of a processor is the
    local index of a global index that the processor owns: [grid_owner]
    and [global_to_local] take [loc[d] * grid_size[d] + idxs[d]] back to
    the processor [idxs] and the local index [loc]. *)
Theorem local_index_reached (p : cyclic_partitioning) (idxs loc sz : index_type) :
  sizes_ok p -> processor_index p idxs ->
  local_size p idxs = Some sz ->
  length loc = D p ->
  (forall d l s, loc !! d = Some l -> sz !! d = Some s -> 0 <= l < s) ->
  global_index p (global_of p loc idxs) /\
  grid_owner p (global_of p loc idxs) = Some idxs /\
  global_to_local p (global_of p loc idxs) = Some loc.
Proof.
  intros Hp Hidx Hsz Hll Hloc.
  destruct (local_size_at p idxs Hp Hidx) as (sz' & Hsz' & Hls & Hlow & Hhigh).
  rewrite Hsz in Hsz'. injection Hsz' as <-.
  destruct Hp as (Hok & Hgrid & Hnn & Hfit). destruct Hidx as (Hli & Hidx).
  pose proof Hok as (HGD & Hgl & Hgr).
  assert (Hlen : length (global_of p loc idxs) = D p).
  { unfold global_of. rewrite length_imap. exact Hll. }
  assert (Hat : forall d x,
             global_of p loc idxs !! d = Some x ->
             exists l, loc !! d = Some l /\
               (((d < G p)%nat /\
                 exists g i n, grid_size_ p !! d = Some g /\
                               idxs !! d = Some i /\
                               global_size_ p !! d = Some n /\
                               0 <= i < g /\ 0 <= l /\ x = l * g + i /\ x < n) \/
                ((G p <= d)%nat /\ grid_size_ p !! d = None /\ x = l /\
                 exists n, global_size_ p !! d = Some n /\ 0 <= l < n))).
  { intros d x Hx. unfold global_of in Hx. rewrite list_lookup_imap in Hx.
    destruct (loc !! d) as [l|] eqn:Hl; [|discriminate].
    cbn in Hx. injection Hx as Hx.
    assert (Hd : (d < D p)%nat) by (apply lookup_lt_Some in Hl; lia).
    destruct (lookup_lt_is_Some_2 sz d ltac:(lia)) as [s Hs].
    destruct (lookup_lt_is_Some_2 (global_size_ p) d ltac:(lia)) as [n Hn].
    pose proof (Hloc d l s Hl Hs) as Hlsz.
    destruct (decide (d < G p)%nat) as [HdG | HdG].
    - destruct (lookup_lt_is_Some_2 (grid_size_ p) d ltac:(lia)) as [g Hg].
      destruct (lookup_lt_is_Some_2 idxs d ltac:(lia)) as [i Hi].
      rewrite Hg, Hi in Hx.
      pose proof (Hgrid d g Hg). pose proof (Hidx d i g Hi Hg).
      pose proof (Hlow d i n g Hi Hn Hg) as Hsv.
      rewrite Hs in Hsv. injection Hsv as Hsv.
      exists l. split; [reflexivity|]. left. split; [exact HdG|].
      exists g, i, n. repeat split; try assumption; try lia.
      subst x. revert Hlsz. rewrite Hsv. Z.div_mod_to_equations. nia.
    - rewrite (lookup_ge_None_2 (grid_size_ p) d) in Hx by lia.
      exists l. split; [reflexivity|]. right.
      split; [lia|]. split; [apply lookup_ge_None_2; lia|].
      split; [congruence|]. exists n. split; [exact Hn|].
      pose proof (Hhigh d ltac:(lia)) as Hsn. rewrite Hs, Hn in Hsn.
      injection Hsn as ->. exact Hlsz. }
  assert (Hglob : forall d x n,
             global_of p loc idxs !! d = Some x ->
             global_size_ p !! d = Some n -> 0 <= x < n).
  { intros d x n Hx Hn.
    destruct (Hat d x Hx) as (l & Hl & [(HdG & g & i & n' & Hg & Hi & Hn' & Hig & Hl0 & -> & Hlt)
                                       | (HdG & Hg & -> & n' & Hn' & Hln)]).
    - rewrite Hn in Hn'. injection Hn' as <-. nia.
    - rewrite Hn in Hn'. injection Hn' as <-. exact Hln. }
  split; [split; assumption|].
  destruct (grid_owner_result p (global_of p loc idxs) Hok Hlen Hgrid Hfit Hglob)
    as (owner & Hown & Hlo & Hov).
  destruct (global_to_local_result p (global_of p loc idxs) Hok Hlen Hgrid Hfit Hglob)
    as (loc' & Hloc' & Hll' & Hlv & Hlh).
  split.
  - rewrite Hown. f_equal. apply list_eq. intros d.
    destruct (decide (d < G p)%nat) as [HdG | HdG].
    + destruct (lookup_lt_is_Some_2 (global_of p loc idxs) d ltac:(lia))
        as [x Hx].
      destruct (Hat d x Hx) as (l & Hl & [(_ & g & i & n & Hg & Hi & Hn & Hig & Hl0 & -> & Hlt)
                                         | (HdG' & _)]); [|lia].
      rewrite (Hov d _ g Hx Hg), Hi. f_equal.
      apply quot_rem_of_composed; assumption.
    + rewrite !lookup_ge_None_2 by lia. reflexivity.
  - rewrite Hloc'. f_equal. apply list_eq. intros d.
    destruct (decide (d < D p)%nat) as [Hd | Hd].
    2:{ rewrite !lookup_ge_None_2 by lia. reflexivity. }
    destruct (lookup_lt_is_Some_2 (global_of p loc idxs) d ltac:(lia))
      as [x Hx].
    destruct (Hat d x Hx) as (l & Hl & [(_ & g & i & n & Hg & Hi & Hn & Hig & Hl0 & -> & Hlt)
                                       | (HdG & Hg & -> & _)]).
    + rewrite (Hlv d _ g Hx Hg), Hl. f_equal.
      apply quot_rem_of_composed; assumption.
    + rewrite (Hlh d HdG), Hx, Hl. reflexivity.
Qed.

Lemma local_index_reached_witness :
  global_index ten_by_seven (global_of ten_by_seven [2; 6] [1]) /\
  grid_owner ten_by_seven (global_of ten_by_seven [2; 6] [1]) = Some [1] /\
  global_to_local ten_by_seven (global_of ten_by_seven [2; 6] [1])
  = Some [2; 6].
Proof.
  apply (local_index_reached ten_by_seven [1] [2; 6] [3; 7]).
  - exact ten_by_seven_ok.
  - apply ten_by_seven_processor. lia.
  - reflexivity.
  - reflexivity.
  - intros [|[|d]] l s; cbn; try discriminate; intros [= <-] [= <-]; lia.
Defined.



End CyclicOps.
